(** * CAIPI: the interactive loop of [caipi.py], embedded and verified

    The development follows [src/caipi.py]: the function [caipi] (the round
    protocol), the tail of [eval_passive] (training on the corrections only)
    and the numpy bookkeeping both rely on.

    Modelling choices.
    - Python lists handed to [caipi] are objects: they live in a [heap] and
      are named by a location, so that [known_examples.append(i)] is seen by
      whoever holds the same list.
    - The Learner and the Problem are collaborators whose code is outside the
      script.  Their methods are fields of the class [Environment]; every call
      threads an opaque [World] (model weights, random streams, the oracle)
      and leaves an [event] in the [trace] of the run.  Collaborators never
      touch the heap.  [select_query] may raise; the other methods return.
    - Exceptions are values of [exn]; a computation is a function from the
      state to a [result] and the state reached, which is kept on failure too.
    - Index sets are well formed for the Problem's data, so [problem.X[i]] and
      [problem.y[i]] are total lookups [X] and [y].
    - Proportions are exact rationals.  Rounding to float64 is monotone and
      keeps 0 and 1, so the order facts stated below carry over.
    - [print] calls, [basename] and the unused [rng] are left out. *)

From Stdlib Require Import ZArith QArith Qminmax Lia Lqa.
From stdpp Require Import base gmap sets list strings sorting.

Local Open Scope Z_scope.

(** ** Exceptions and results *)

Inductive exn :=
| AssertionError
| FloatingPointError
| ValueError
| ZeroDivisionError
| Raised (code : Z).

Inductive result (A : Type) :=
| Ok (a : A)
| Raise (e : exn).
Arguments Ok {A} a.
Arguments Raise {A} e.

(** ** numpy helpers *)

Inductive npfloat :=
| Fin (q : Q)
| PInf
| NInf
| NaN.

(** [range(n)] *)
Definition range (n : Z) : list Z := Z.of_nat <$> seq 0 (Z.to_nat n).

(** [len(y_known[y_known == label])] *)
Definition count_label (y_known : list Z) (label : Z) : nat :=
  length (filter (λ v, v = label) y_known).

(** [np.max] and [np.min] of a non-empty array of finite values. *)
Definition np_max (x : Q) (xs : list Q) : Q := foldr Qmax x xs.
Definition np_min (x : Q) (xs : list Q) : Q := foldr Qmin x xs.

(** Scalar [a / b] on float64 values.  [seterr_raise] says whether
    [np.seterr(all='raise')] is in force (as [main] arranges): then a zero
    divisor raises, otherwise numpy warns and yields an infinity or a NaN. *)
Definition true_divide (seterr_raise : bool) (a b : Q) : result npfloat :=
  if Qeq_bool b 0 then
    if seterr_raise then Raise FloatingPointError
    else Ok (if Qeq_bool a 0 then NaN
             else if Qle_bool 0 a then PInf else NInf)
  else Ok (Fin (a / b))%Q.

(** [per_class = np.array([...counts...]) / len(y_known)], for a non-empty
    [y_known]. *)
Definition per_class (y_known : list Z) (n_classes : nat) : list Q :=
  (λ label, inject_Z (Z.of_nat (count_label y_known label))
            / inject_Z (Z.of_nat (length y_known)))%Q
  <$> range (Z.of_nat n_classes).

(** [balance = np.max(per_class) / np.min(per_class)].
    With no declared class the array is empty and [np.max] raises
    [ValueError].  With an empty [y_known] every entry is [0 / 0]: an error
    in raise mode, an array of NaN otherwise, whose ratio is NaN. *)
Definition balance (seterr_raise : bool) (y_known : list Z) (n_classes : nat)
  : result npfloat :=
  match per_class y_known n_classes with
  | [] => Raise ValueError
  | p :: ps =>
      if bool_decide (length y_known = 0%nat) then
        if seterr_raise then Raise FloatingPointError else Ok NaN
      else true_divide seterr_raise (np_max p ps) (np_min p ps)
  end.

(** Modelled from the spec: [vstack] and [hstack] of the [caipi] package,
    which is not part of the script.  Step 8 of the round protocol has them
    concatenate the correction rows or labels, if any, with those of the
    known examples: an absent ([None]) block contributes nothing. *)
Definition stack {A : Type} (blocks : list (option (list A))) : list A :=
  concat (default [] <$> blocks).
Definition vstack {A : Type} := @stack A.
Definition hstack {A : Type} := @stack A.

(** ** The environment of a run *)

Abbreviation loc := positive.

(** The [t] argument of [problem.eval]: a round number in [caipi], a name in
    [eval_passive]. *)
Inductive tag :=
| Round (t : Z)
| Name (s : string).

Class Environment := {
  World : Type;
  Row : Type;
  Row_eq_dec :: EqDecision Row;
  Row_countable :: Countable Row;
  Expl : Type;
  Params : Type;
  Score : Type;
  (* numpy's error state *)
  seterr_raise : bool;
  (* the Problem's data *)
  X : Z → Row;
  y : Z → Z;
  n_classes : nat;                       (* len(problem.class_names) *)
  explainable : gset Z;
  densify : Row → Row;
  (* the Learner *)
  select_model : World → list Row → list Z → World;
  fit : World → list Row → list Z → World;
  select_query : World → gset Z → result Z * World;
  predict : World → Row → Z * World;     (* learner.predict(x)[0] *)
  get_params : World → Params * World;
  (* the Problem *)
  explain : World → list Z → Z → Z → Expl * World;
  query_label : World → Z → Z * World;
  query_corrections :
    World → option (list Row) → option (list Z) → Z → Z → option Expl →
    gset Row → (option (list Row) * option (list Z)) * World;
  eval : World → list Z → list Z → option (list Z) → tag →
         list Score * World;
}.

Section Model.
Context `{Env : Environment}.

(** One entry of a performance tuple: what [problem.eval] reports, or the
    number of corrections appended by [caipi]. *)
Inductive pval :=
| Measured (s : Score)
| Count (n : nat).

Inductive event :=
| LearnerSelectModel (Xs : list Row) (ys : list Z)
| LearnerFit (Xs : list Row) (ys : list Z)
| LearnerSelectQuery (pool : gset Z)
| LearnerPredict (x : Row)
| LearnerGetParams
| ProblemExplain (known : list Z) (i pred_y : Z)
| ProblemQueryLabel (i : Z)
| ProblemQueryCorrections (X_corr : option (list Row))
    (y_corr : option (list Z)) (i pred_y : Z) (pred_expl : option Expl)
    (X_test_tuples : gset Row)
| ProblemEval (known test : list Z) (eval_set : option (list Z)) (t : tag)
| Dump (w_train : Params) (w_corr : option Params) (w_both : Params).

Record state := State {
  heap : gmap loc (list Z);
  world : World;
  trace : list event;
}.

(** ** Computations *)

Definition M (A : Type) : Type := state → result A * state.

#[export] Instance M_ret : MRet M := λ A a σ, (Ok a, σ).
#[export] Instance M_bind : MBind M := λ A B f m σ,
  match m σ with
  | (Ok a, σ') => f a σ'
  | (Raise e, σ') => (Raise e, σ')
  end.

Definition raise {A : Type} (e : exn) : M A := λ σ, (Raise e, σ).

Definition lift {A : Type} (r : result A) : M A := λ σ, (r, σ).

(** [assert c] *)
Definition py_assert (c : bool) : M () :=
  if c then mret () else raise AssertionError.

(** Reading a list object. *)
Definition deref (l : loc) : M (list Z) := λ σ, (Ok (heap σ !!! l), σ).

(** [l.append(i)] *)
Definition append (l : loc) (i : Z) : M () := λ σ,
  (Ok (), State (<[l := (heap σ !!! l) ++ [i]]> (heap σ)) (world σ) (trace σ)).

(** A collaborator call that returns. *)
Definition call {A : Type} (ev : event) (f : World → A * World) : M A :=
  λ σ, let '(a, w) := f (world σ) in
       (Ok a, State (heap σ) w (trace σ ++ [ev])).

(** A collaborator call that may raise. *)
Definition call_fallible {A : Type} (ev : event)
    (f : World → result A * World) : M A :=
  λ σ, let '(r, w) := f (world σ) in
       (r, State (heap σ) w (trace σ ++ [ev])).

Definition learner_select_model (Xs : list Row) (ys : list Z) : M () :=
  call (LearnerSelectModel Xs ys) (λ w, ((), select_model w Xs ys)).
Definition learner_fit (Xs : list Row) (ys : list Z) : M () :=
  call (LearnerFit Xs ys) (λ w, ((), fit w Xs ys)).
Definition learner_select_query (pool : gset Z) : M Z :=
  call_fallible (LearnerSelectQuery pool) (λ w, select_query w pool).
Definition learner_predict (x : Row) : M Z :=
  call (LearnerPredict x) (λ w, predict w x).
Definition learner_get_params : M Params :=
  call LearnerGetParams get_params.
Definition problem_explain (known : list Z) (i pred_y : Z) : M Expl :=
  call (ProblemExplain known i pred_y) (λ w, explain w known i pred_y).
Definition problem_query_label (i : Z) : M Z :=
  call (ProblemQueryLabel i) (λ w, query_label w i).
Definition problem_query_corrections (X_corr : option (list Row))
    (y_corr : option (list Z)) (i pred_y : Z) (pred_expl : option Expl)
    (X_test_tuples : gset Row)
  : M (option (list Row) * option (list Z)) :=
  call (ProblemQueryCorrections X_corr y_corr i pred_y pred_expl X_test_tuples)
       (λ w, query_corrections w X_corr y_corr i pred_y pred_expl
                               X_test_tuples).
Definition problem_eval (known test : list Z) (eval_set : option (list Z))
    (t : tag) : M (list pval) :=
  call (ProblemEval known test eval_set t)
       (λ w, let '(p, w') := eval w known test eval_set t in
             (Measured <$> p, w')).
Definition dump (w_train : Params) (w_corr : option Params) (w_both : Params)
  : M () := λ σ,
  (Ok (), State (heap σ) (world σ) (trace σ ++ [Dump w_train w_corr w_both])).

(** [a % b] on Python integers. *)
Definition py_mod (a b : Z) : result Z :=
  if bool_decide (b = 0) then Raise ZeroDivisionError else Ok (a `mod` b).

(** ** Reading a trace *)

(** The indices whose label was asked of the oracle, in order. *)
Definition labelled (evs : list event) : list Z :=
  omap (λ ev, match ev with ProblemQueryLabel i => Some i | _ => None end) evs.

(** The candidate pools handed to [select_query], in order; one per round
    started. *)
Definition pools (evs : list event) : list (gset Z) :=
  omap (λ ev, match ev with LearnerSelectQuery pool => Some pool | _ => None end)
       evs.

(** The calls of [problem.eval]. *)
Definition evaluations (evs : list event)
  : list (list Z * list Z * option (list Z) * tag) :=
  omap (λ ev, match ev with
              | ProblemEval known test eval_set t =>
                  Some (known, test, eval_set, t)
              | _ => None
              end) evs.

(** The datasets given to [learner.fit]. *)
Definition fits (evs : list event) : list (list Row * list Z) :=
  omap (λ ev, match ev with LearnerFit Xs ys => Some (Xs, ys) | _ => None end)
       evs.

Definition is_explain (ev : event) : bool :=
  match ev with ProblemExplain _ _ _ => true | _ => false end.
Definition is_query_corrections (ev : event) : bool :=
  match ev with ProblemQueryCorrections _ _ _ _ _ _ => true | _ => false end.

(** Rows and labels of the correction accumulator; nothing when absent. *)
Definition n_rows {A : Type} (acc : option (list A)) : nat :=
  from_option length 0%nat acc.
Definition aligned (Xc : option (list Row)) (yc : option (list Z)) : Prop :=
  n_rows Xc = n_rows yc.

(** A dataset made of the rows and labels of known examples only. *)
Definition label_only_fit (known_list : list Z) (f : list Row * list Z)
  : Prop :=
  ∃ k, k `prefix_of` known_list ∧ f = (X <$> k, y <$> k).

(** Events whose rows and labels match in number. *)
Definition well_aligned (ev : event) : Prop :=
  match ev with
  | LearnerSelectModel Xs ys | LearnerFit Xs ys => length Xs = length ys
  | ProblemQueryCorrections Xc yc _ _ _ _ => aligned Xc yc
  | _ => True
  end.

(** The oracle returns as many synthetic rows as synthetic labels. *)
Definition corrections_aligned : Prop :=
  ∀ w Xc yc i pred_y pred_expl T,
    aligned Xc yc →
    aligned (query_corrections w Xc yc i pred_y pred_expl T).1.1
            (query_corrections w Xc yc i pred_y pred_expl T).1.2.

(** ** [caipi] *)

(** The variables a round reads and rebinds. *)
Record locals := Locals {
  X_corr : option (list Row);
  y_corr : option (list Z);
  perfs : list (list pval);
  params : list Params;
}.

(** [explain = 0 <= start_expl_at <= t] *)
Definition explain_flag (start_expl_at t : Z) : bool :=
  bool_decide (0 ≤ start_expl_at) && bool_decide (start_expl_at ≤ t).

Section Caipi.
Variables train_examples known_examples test_examples eval_examples : loc.
Variables max_iters start_expl_at eval_iters : Z.

(** The body of the [for] loop after the termination check (lines 238-290). *)
Definition round (X_test_tuples : gset Row) (t : Z) (ℓ : locals) : M locals :=
  train ← deref train_examples;
  known ← deref known_examples;
  let unknown_examples : gset Z := list_to_set train ∖ list_to_set known in
  i ← learner_select_query (unknown_examples ∩ explainable);
  train ← deref train_examples;
  known ← deref known_examples;
  _ ← py_assert (bool_decide (i ∈ train) && negb (bool_decide (i ∈ known)));
  let x := densify (X i) in
  let explain := explain_flag start_expl_at t in
  pred_y ← learner_predict x;
  pred_expl ← (if explain
               then known ← deref known_examples;
                    e ← problem_explain known i pred_y; mret (Some e)
               else mret None);
  true_y ← problem_query_label i;
  _ ← append known_examples i;
  corr ← (if explain
          then problem_query_corrections (X_corr ℓ) (y_corr ℓ) i pred_y
                                         pred_expl X_test_tuples
          else mret (X_corr ℓ, y_corr ℓ));
  let '(X_corr', y_corr') := corr in
  known ← deref known_examples;
  let X_known := vstack [X_corr'; Some (X <$> known)] in
  let y_known := hstack [y_corr'; Some (y <$> known)] in
  balance ← lift (balance seterr_raise y_known n_classes);
  _ ← learner_fit X_known y_known;
  p ← learner_get_params;
  m ← lift (py_mod t eval_iters);
  let do_eval := bool_decide (m = 0) in
  known ← deref known_examples;
  test ← deref test_examples;
  eval_set ← (if do_eval then ev ← deref eval_examples; mret (Some ev)
              else mret None);
  perf ← problem_eval known test eval_set (Round t);
  let n_corrections := from_option length 0%nat y_corr' in
  let perf := perf ++ [Count n_corrections] in
  params_for_print ← learner_get_params;
  mret (Locals X_corr' y_corr' (perfs ℓ ++ [perf]) (params ℓ ++ [p])).

(** *** The exits of a round

    The ways through [round] from a state [σ], written as a relation: what is
    called, with which arguments, in which order, and where the round ends. *)

Section Exits.
Variables (X_test_tuples : gset Row) (t : Z) (ℓ : locals) (σ : state).

Definition candidate_pool : gset Z :=
  (list_to_set (heap σ !!! train_examples)
     ∖ list_to_set (heap σ !!! known_examples)) ∩ explainable.

(** Selection, prediction, optional explanation, labelling and optional
    correction for a legal query [i]: the accumulators and the world they
    leave, and the calls made. *)
Inductive acquisition :
  Z → option (list Row) → option (list Z) → World → list event → Prop :=
| acquire_label i w1 pred_y w2 true_y w3 :
    explain_flag start_expl_at t = false →
    select_query (world σ) candidate_pool = (Ok i, w1) →
    i ∈ heap σ !!! train_examples →
    i ∉ heap σ !!! known_examples →
    predict w1 (densify (X i)) = (pred_y, w2) →
    query_label w2 i = (true_y, w3) →
    acquisition i (X_corr ℓ) (y_corr ℓ) w3
      [LearnerSelectQuery candidate_pool; LearnerPredict (densify (X i));
       ProblemQueryLabel i]
| acquire_label_and_corrections i w1 pred_y w2 e w3 true_y w4 Xc yc w5 :
    explain_flag start_expl_at t = true →
    select_query (world σ) candidate_pool = (Ok i, w1) →
    i ∈ heap σ !!! train_examples →
    i ∉ heap σ !!! known_examples →
    predict w1 (densify (X i)) = (pred_y, w2) →
    explain w2 (heap σ !!! known_examples) i pred_y = (e, w3) →
    query_label w3 i = (true_y, w4) →
    query_corrections w4 (X_corr ℓ) (y_corr ℓ) i pred_y (Some e)
                      X_test_tuples = ((Xc, yc), w5) →
    acquisition i Xc yc w5
      [LearnerSelectQuery candidate_pool; LearnerPredict (densify (X i));
       ProblemExplain (heap σ !!! known_examples) i pred_y;
       ProblemQueryLabel i;
       ProblemQueryCorrections (X_corr ℓ) (y_corr ℓ) i pred_y (Some e)
                               X_test_tuples].

(** The heap once [i] is appended, and the dataset assembled from it. *)
Definition heap_after (i : Z) : gmap loc (list Z) :=
  <[known_examples := (heap σ !!! known_examples) ++ [i]]> (heap σ).
Definition X_known_of (i : Z) (Xc : option (list Row)) : list Row :=
  vstack [Xc; Some (X <$> heap_after i !!! known_examples)].
Definition y_known_of (i : Z) (yc : option (list Z)) : list Z :=
  hstack [yc; Some (y <$> heap_after i !!! known_examples)].

(** The [eval_examples] argument of [problem.eval] in round [t]. *)
Definition eval_argument (i : Z) : option (list Z) :=
  if bool_decide (t `mod` eval_iters = 0)
  then Some (heap_after i !!! eval_examples) else None.

Inductive round_outcome : result locals → state → Prop :=
| round_select_raised e w :
    select_query (world σ) candidate_pool = (Raise e, w) →
    round_outcome (Raise e)
      (State (heap σ) w (trace σ ++ [LearnerSelectQuery candidate_pool]))
| round_assert_failed i w :
    select_query (world σ) candidate_pool = (Ok i, w) →
    ¬ (i ∈ heap σ !!! train_examples ∧ i ∉ heap σ !!! known_examples) →
    round_outcome (Raise AssertionError)
      (State (heap σ) w (trace σ ++ [LearnerSelectQuery candidate_pool]))
| round_balance_raised i Xc yc w evs e :
    acquisition i Xc yc w evs →
    balance seterr_raise (y_known_of i yc) n_classes = Raise e →
    round_outcome (Raise e) (State (heap_after i) w (trace σ ++ evs))
| round_mod_raised i Xc yc w evs b p wp :
    acquisition i Xc yc w evs →
    balance seterr_raise (y_known_of i yc) n_classes = Ok b →
    get_params (fit w (X_known_of i Xc) (y_known_of i yc)) = (p, wp) →
    eval_iters = 0 →
    round_outcome (Raise ZeroDivisionError)
      (State (heap_after i) wp
         (trace σ ++ evs ++
          [LearnerFit (X_known_of i Xc) (y_known_of i yc); LearnerGetParams]))
| round_completed i Xc yc w evs b p wp perf we pp wf :
    acquisition i Xc yc w evs →
    balance seterr_raise (y_known_of i yc) n_classes = Ok b →
    get_params (fit w (X_known_of i Xc) (y_known_of i yc)) = (p, wp) →
    eval_iters ≠ 0 →
    eval wp (heap_after i !!! known_examples) (heap_after i !!! test_examples)
         (eval_argument i) (Round t) = (perf, we) →
    get_params we = (pp, wf) →
    round_outcome
      (Ok (Locals Xc yc
             (perfs ℓ ++ [(Measured <$> perf)
                          ++ [Count (from_option length 0%nat yc)]])
             (params ℓ ++ [p])))
      (State (heap_after i) wf
         (trace σ ++ evs ++
          [LearnerFit (X_known_of i Xc) (y_known_of i yc); LearnerGetParams;
           ProblemEval (heap_after i !!! known_examples)
                       (heap_after i !!! test_examples)
                       (eval_argument i) (Round t);
           LearnerGetParams])).

End Exits.

(** [for t in range(max_iters)], with the [break] of lines 235-236. *)
Fixpoint loop (X_test_tuples : gset Row) (ts : list Z) (ℓ : locals)
  : M locals :=
  match ts with
  | [] => mret ℓ
  | t :: ts' =>
      known ← deref known_examples;
      train ← deref train_examples;
      if bool_decide (length train ≤ length known)%nat then mret ℓ
      else ℓ' ← round X_test_tuples t ℓ; loop X_test_tuples ts' ℓ'
  end.

Definition caipi : M (list (list pval) * list Params) :=
  test ← deref test_examples;
  let X_test_tuples : gset Row := list_to_set ((λ i, densify (X i)) <$> test) in
  known ← deref known_examples;
  _ ← learner_select_model (X <$> known) (y <$> known);
  known ← deref known_examples;
  _ ← learner_fit (X <$> known) (y <$> known);
  ℓ ← loop X_test_tuples (range max_iters) (Locals None None [] []);
  mret (perfs ℓ, params ℓ).

(** *** Reading a run *)

(** The events before the loop: model selection and the first fit, both on
    the known examples. *)
Definition preamble (σ : state) : list event :=
  let known := heap σ !!! known_examples in
  [LearnerSelectModel (X <$> known) (y <$> known);
   LearnerFit (X <$> known) (y <$> known)].

(** The state in which the loop starts. *)
Definition before_loop (σ : state) : state :=
  let known := heap σ !!! known_examples in
  State (heap σ)
        (fit (select_model (world σ) (X <$> known) (y <$> known))
             (X <$> known) (y <$> known))
        (trace σ ++ [LearnerSelectModel (X <$> known) (y <$> known);
                     LearnerFit (X <$> known) (y <$> known)]).

(** [X_test_tuples] *)
Definition test_tuples (σ : state) : gset Row :=
  list_to_set ((λ i, densify (X i)) <$> heap σ !!! test_examples).

(** The state of the loop against the state [σ0] it started from, with [n]
    bounding the rounds started so far plus those still to come. *)
Definition progress (σ0 : state) (n : nat) (ts : list Z) (σ : state)
    (evs : list event) : Prop :=
  trace σ = trace σ0 ++ evs ∧
  (heap σ !!! known_examples) = (heap σ0 !!! known_examples) ++ labelled evs ∧
  (∀ l, l ≠ known_examples → heap σ !! l = heap σ0 !! l) ∧
  (length (pools evs) + length ts ≤ n)%nat ∧
  (length (labelled evs) ≤ length (pools evs))%nat ∧
  (NoDup ((heap σ0 !!! known_examples)) → NoDup ((heap σ !!! known_examples))) ∧
  ((heap σ0 !!! known_examples) ⊆ (heap σ0 !!! train_examples) → (heap σ !!! known_examples) ⊆ (heap σ !!! train_examples)).

End Caipi.

(** ** The tail of [eval_passive] (lines 157-187)

    The state after line 155: both accumulators are arrays, and
    [train_params] holds the parameters fitted on the full training set. *)

(** [np.min] and [np.max] of a label array. *)
Definition labels_min (ys : list Z) : result Z :=
  match ys with
  | [] => Raise ValueError
  | v :: vs => Ok (foldr Z.min v vs)
  end.
Definition labels_max (ys : list Z) : result Z :=
  match ys with
  | [] => Raise ValueError
  | v :: vs => Ok (foldr Z.max v vs)
  end.

Definition eval_passive_on_corrections
    (train_examples test_examples eval_examples : list Z)
    (train_params : Params) (X_corr : list Row) (y_corr : list Z) : M () :=
  lo ← lift (labels_min y_corr);
  hi ← lift (labels_max y_corr);
  corr_params ← (if bool_decide (lo ≠ hi)
                 then _ ← learner_fit X_corr y_corr;
                      p ← learner_get_params;
                      perf ← problem_eval train_examples test_examples
                                          (Some eval_examples) (Name "corr");
                      mret (Some p)
                 else mret None);
  let X_train_corr := vstack [Some (X <$> train_examples); Some X_corr] in
  let y_train_corr := hstack [Some (y <$> train_examples); Some y_corr] in
  _ ← learner_fit X_train_corr y_train_corr;
  train_corr_params ← learner_get_params;
  perf ← problem_eval train_examples test_examples (Some eval_examples)
                      (Name "train+corr");
  dump train_params corr_params train_corr_params.

End Model.

(** ** A small concrete environment

    Rows are numbers, the label of example [i] is [i mod 2], the model is the
    number of fits so far, the oracle corrects every explained query by one
    synthetic row.  The query strategy and numpy's error mode are left open. *)

Definition pick_min (pool : gset Z) : result Z :=
  match elements pool with
  | [] => Raise (Raised 1)
  | i :: js => Ok (foldr Z.min i js)
  end.

Definition toy (raise_mode : bool) (expl : gset Z)
    (strategy : gset Z → result Z) : Environment := {|
  World := nat;
  Row := Z;
  Expl := Z;
  Params := nat;
  Score := nat;
  seterr_raise := raise_mode;
  X := λ i, 10 * i;
  y := λ i, i `mod` 2;
  n_classes := 2;
  explainable := expl;
  densify := λ r, r;
  select_model := λ w _ _, w;
  fit := λ w _ _, S w;
  select_query := λ w pool, (strategy pool, w);
  predict := λ w x, (0, w);
  get_params := λ w, (w, w);
  explain := λ w _ i _, (i, w);
  query_label := λ w i, (i `mod` 2, w);
  query_corrections := λ w Xc yc i pred_y _ _,
    ((Some (default [] Xc ++ [10 * i + 1]), Some (default [] yc ++ [1 - pred_y])), w);
  eval := λ w known _ _ _, ([length known], w);
|}.

(** Four list objects: train, known, test and eval examples. *)
Definition toy_heap (train known test evals : list Z) : gmap loc (list Z) :=
  <[1%positive := train]> (<[2%positive := known]>
    (<[3%positive := test]> (<[4%positive := evals]> ∅))).

Definition toy_state (E : Environment) (w : @World E)
    (train known test evals : list Z) : @state E :=
  State (toy_heap train known test evals) w [].

Definition toy_caipi (E : Environment) (max_iters start_expl_at eval_iters : Z)
  : @M E _ :=
  caipi 1%positive 2%positive 3%positive 4%positive
        max_iters start_expl_at eval_iters.

Definition toy_round (E : Environment) (start_expl_at eval_iters : Z)
    (X_test_tuples : gset (@Row E)) (t : Z) (ℓ : @locals E) : @M E _ :=
  round 1%positive 2%positive 3%positive 4%positive start_expl_at eval_iters
        X_test_tuples t ℓ.

(** A learner that answers 0 whatever the pool. *)
Definition always_zero (pool : gset Z) : result Z := Ok 0.

(** Everything explainable, smallest candidate first, numpy errors raised. *)
Definition strict : Environment :=
  toy true (list_to_set [0; 1; 2; 3; 4; 5]) pick_min.

(** Only examples 0 and 1 explainable. *)
Definition partly_explainable : Environment :=
  toy true (list_to_set [0; 1]) pick_min.

(** A learner that keeps asking about example 0. *)
Definition stubborn : Environment :=
  toy true (list_to_set [0; 1; 2; 3]) always_zero.

(** Four training examples, two of them known. *)
Definition two_known (E : Environment) (w : @World E) : @state E :=
  toy_state E w [0; 1; 2; 3] [0; 1] [6; 7] [6].

(** Two training examples of class 0, one of them known. *)
Definition one_class (E : Environment) (w : @World E) : @state E :=
  toy_state E w [0; 2] [0] [6; 7] [6].

(** Every training example known. *)
Definition all_known (E : Environment) (w : @World E) : @state E :=
  toy_state E w [0; 1] [0; 1] [6; 7] [6].

Definition no_locals (E : Environment) : @locals E := Locals None None [] [].


(** * The drivers around the loop

    What follows embeds the code of [caipi.py] around [caipi]: the
    subsampling of the known and evaluation examples, the correction sweep
    of the passive evaluation and the body of the fold loop. *)

(** ** Exceptions of the drivers *)

(** The exceptions of [exn], and those only the drivers meet. *)
Inductive exception :=
| Builtin (e : exn)
| IndexError
| OverflowError.

Inductive completion (A : Type) :=
| Return (a : A)
| Throw (e : exception).
Arguments Return {A} a.
Arguments Throw {A} e.

(** ** [_subsample] *)

(** [a[i]] on a numpy array: negative indices count from the end, anything
    outside [-len, len) raises [IndexError]. *)
Definition getitem {A : Type} (a : list A) (i : Z) : option A :=
  if bool_decide (0 ≤ i) then a !! Z.to_nat i
  else if bool_decide (- Z.of_nat (length a) ≤ i)
       then a !! Z.to_nat (Z.of_nat (length a) + i)
       else None.

(** [int(prop)] on a float: truncation towards zero. *)
Definition int_of_float (prop : npfloat) : completion Z :=
  match prop with
  | Fin q => Return (Z.quot (Qnum q) (Z.pos (Qden q)))
  | PInf | NInf => Throw OverflowError
  | NaN => Throw (Builtin ValueError)
  end.

(** [0 <= prop <= 1] *)
Definition in_unit_interval (prop : npfloat) : bool :=
  match prop with
  | Fin q => Qle_bool 0 q && Qle_bool q 1
  | _ => false
  end.

Section Subsample.

(** The label array [problem.y]. *)
Variable problem_y : list Z.

(** The state of a [RandomState] and its method [permutation]. *)
Variable Rng : Type.
Variable permutation : Rng → nat → list nat * Rng.

(** [int(round(len(examples) * prop))]: a product and a rounding in double
    precision, left open. *)
Variable scaled_round : nat → npfloat → Z.

(** [sorted(set(problem.y))] *)
Definition classes : list Z := merge_sort Z.le (remove_dups problem_y).

(** [[i for i in examples if problem.y[i] == y]] *)
Fixpoint examples_of_class (examples : list Z) (y : Z) : completion (list Z) :=
  match examples with
  | [] => Return []
  | i :: examples' =>
      match getitem problem_y i with
      | None => Throw IndexError
      | Some v =>
          match examples_of_class examples' y with
          | Throw e => Throw e
          | Return rest =>
              Return (if bool_decide (v = y) then i :: rest else rest)
          end
      end
  end.

(** [examples_y[positions]] for an array of positions. *)
Fixpoint take_positions (examples_y : list Z) (positions : list nat)
  : completion (list Z) :=
  match positions with
  | [] => Return []
  | k :: positions' =>
      match examples_y !! k with
      | None => Throw IndexError
      | Some i =>
          match take_positions examples_y positions' with
          | Throw e => Throw e
          | Return rest => Return (i :: rest)
          end
      end
  end.

(** Lines 69-73. *)
Definition n_sampled_per_class (examples : list Z) (prop : npfloat)
  : completion Z :=
  if in_unit_interval prop then
    let n_sampled := scaled_round (length examples) prop in
    if bool_decide (length classes = 0%nat)
    then Throw (Builtin ZeroDivisionError)
    else Return (Z.max (n_sampled `div` Z.of_nat (length classes)) 3)
  else
    match int_of_float prop with
    | Return n => Return (Z.max n 3)
    | Throw e => Throw e
    end.

(** The [for y in classes] loop, lines 75-79. *)
Fixpoint sample_classes (rng : Rng) (ys : list Z) (examples : list Z)
    (n : Z) (sample : list Z) : completion (list Z) * Rng :=
  match ys with
  | [] => (Return sample, rng)
  | y :: ys' =>
      match examples_of_class examples y with
      | Throw e => (Throw e, rng)
      | Return examples_y =>
          let '(pi, rng') := permutation rng (length examples_y) in
          match take_positions examples_y (take (Z.to_nat n) pi) with
          | Throw e => (Throw e, rng')
          | Return chosen =>
              sample_classes rng' ys' examples n (sample ++ chosen)
          end
      end
  end.

Definition _subsample (rng : Rng) (examples : list Z) (prop : npfloat)
  : completion (list Z) * Rng :=
  match n_sampled_per_class examples prop with
  | Throw e => (Throw e, rng)
  | Return n => sample_classes rng classes examples n []
  end.

(** [rng.permutation(n)] returns the numbers below [n] in some order. *)
Definition permutes : Prop :=
  ∀ rng n, (permutation rng n).1 ≡ₚ seq 0 n.

(** Example [i] indexes a row of the problem, of label [y]. *)
Definition in_class (y i : Z) : Prop := getitem problem_y i = Some y.
Definition valid_index (i : Z) : Prop := is_Some (getitem problem_y i).

(** Labels do not decrease from [i1] to [i2]. *)
Definition label_le (i1 i2 : Z) : Prop :=
  ∀ y1 y2, in_class y1 i1 → in_class y2 i2 → y1 ≤ y2.

#[global] Instance in_class_dec (y i : Z) : Decision (in_class y i) :=
  decide (getitem problem_y i = Some y).
#[global] Instance valid_index_dec (i : Z) : Decision (valid_index i) :=
  decide (is_Some (getitem problem_y i)).

End Subsample.

(** A deterministic generator for the examples: the state counts the calls,
    and the permutation is the reversal. *)
Definition reversing (rng : nat) (n : nat) : list nat * nat :=
  (reverse (seq 0 n), S rng).

(** Exact product and rounding half up, standing for the double-precision
    computation in the examples. *)
Definition exact_round (n : nat) (prop : npfloat) : Z :=
  match prop with
  | Fin q =>
      (2 * Z.of_nat n * Qnum q + Z.pos (Qden q)) `div` (2 * Z.pos (Qden q))
  | _ => 0
  end.

(** ** [eval_interactive] *)

Section Folds.
Context `{Env : Environment}.

(** The two pickle files written by [eval_interactive]: the performance
    traces and the parameter traces of the folds run so far. *)
Record files := Files {
  perfs_pickle : option (list (list (list pval)));
  params_pickle : option (list (list Params));
}.

(** Computations of the driver: the state of [caipi] and the files. *)
Definition D (A : Type) : Type := state * files → completion A * (state * files).

Definition dret {A : Type} (a : A) : D A := λ s, (Return a, s).
Definition dbind {A B : Type} (m : D A) (f : A → D B) : D B := λ s,
  match m s with
  | (Return a, s') => f a s'
  | (Throw e, s') => (Throw e, s')
  end.

(** Running a computation of [caipi] inside the driver. *)
Definition run {A : Type} (m : M A) : D A := λ s,
  match m s.1 with
  | (Ok a, σ) => (Return a, (σ, s.2))
  | (Raise e, σ) => (Throw (Builtin e), (σ, s.2))
  end.

(** A new list object holding [l]. *)
Definition alloc (l : list Z) : D loc := λ s,
  let r := fresh (dom (heap s.1)) in
  (Return r, (State (<[r := l]> (heap s.1)) (world s.1) (trace s.1), s.2)).

Variable problem_y : list Z.
Variable Rng : Type.
Variable permutation : Rng → nat → list nat * Rng.
Variable scaled_round : nat → npfloat → Z.

(** [check_random_state(0)]: a generator freshly seeded with 0. *)
Variable seeded_0 : Rng.

(** [LEARNERS[args.learner](problem, strategy=args.strategy, rng=0)] *)
Variable new_learner : World → World.

(** The fields of [args] that the loop reads. *)
Variables prop_known prop_eval : npfloat.
Variables max_iters start_expl_at eval_iters : Z.

(** [_subsample(problem, examples, prop, rng=0)] *)
Definition subsample_seeded (examples : list Z) (prop : npfloat)
  : D (list Z) := λ s,
  ((_subsample problem_y Rng permutation scaled_round seeded_0 examples
               prop).1, s).

Definition make_learner : D () := λ s,
  (Return (), (State (heap s.1) (new_learner (world s.1)) (trace s.1), s.2)).

(** Lines 311-316: the four lists of a fold. *)
Definition fold_lists (train test : list Z) : D (loc * loc * loc * loc) :=
  dbind (alloc train) (λ train_examples,
  dbind (subsample_seeded train prop_known) (λ known,
  dbind (alloc known) (λ known_examples,
  dbind (alloc test) (λ test_examples,
  dbind (subsample_seeded test prop_eval) (λ evals,
  dbind (alloc evals) (λ eval_examples,
  dret (train_examples, known_examples, test_examples, eval_examples))))))).

(** Lines 311-330: the lists, a new learner, and [caipi] on them. *)
Definition fold (train test : list Z)
  : D (list (list pval) * list Params) :=
  dbind (fold_lists train test) (λ '(train_examples, known_examples,
                                     test_examples, eval_examples),
  dbind make_learner (λ _,
  run (caipi train_examples known_examples test_examples eval_examples
             max_iters start_expl_at eval_iters))).

(** [dump(basename + '.pickle', ...)] and
    [dump(basename + '-params.pickle', params)] *)
Definition dump_perfs (perfs : list (list (list pval))) : D () := λ s,
  (Return (), (s.1, Files (Some perfs) (params_pickle s.2))).
Definition dump_params (params : list (list Params)) : D () := λ s,
  (Return (), (s.1, Files (perfs_pickle s.2) (Some params))).

(** The loop over the folds, lines 305-335. *)
Fixpoint fold_loop (folds : list (list Z * list Z))
    (perfs : list (list (list pval))) (params : list (list Params)) : D () :=
  match folds with
  | [] => dret ()
  | (train, test) :: folds' =>
      dbind (fold train test) (λ '(perf, param),
      let perfs := perfs ++ [perf] in
      let params := params ++ [param] in
      dbind (dump_perfs perfs) (λ _,
      dbind (dump_params params) (λ _,
      fold_loop folds' perfs params)))
  end.

Definition eval_interactive (folds : list (list Z * list Z)) : D () :=
  fold_loop folds [] [].

End Folds.

(** A problem of ten examples with alternating labels, run on the small
    environment with a learner reset at each fold. *)
Definition ten_labels : list Z := [0; 1; 0; 1; 0; 1; 0; 1; 0; 1].

Definition reset_learner : @World strict → @World strict := λ _, 0%nat.

Definition demo_fold (train test : list Z)
  : @D strict (list (list (@pval strict)) * list (@Params strict)) :=
  fold ten_labels nat reversing exact_round 0%nat reset_learner
       (Fin (1 # 10)) (Fin (1 # 10)) 1 (-1) 1 train test.

Definition demo_eval_interactive (folds : list (list Z * list Z))
  : @D strict () :=
  eval_interactive ten_labels nat reversing exact_round 0%nat reset_learner
                   (Fin (1 # 10)) (Fin (1 # 10)) 1 (-1) 1 folds.

Definition empty_driver : @state strict * @files strict :=
  (State ∅ (0%nat : @World strict) [], Files None None).
(** Everything explainable, smallest candidate first, numpy errors only
    warned about. *)
Definition lenient : Environment :=
  toy false (list_to_set [0; 1; 2; 3; 4; 5]) pick_min.

(** ** The corrections sweep of [eval_passive] (lines 135-150)

    Every explainable training example is predicted and explained by the
    model fitted before the sweep, and corrected by the oracle, the
    corrections accumulating from nothing.  A Python set is iterated in an
    order of its own: [set_order] stands for it. *)

Section Sweep.
Context `{Env : Environment}.
Variable set_order : gset Z → list Z.

(** [for j, i in enumerate(expl_train_examples)] *)
Fixpoint corrections_sweep (train_examples : list Z)
    (X_test_tuples : gset Row) (order : list Z)
    (X_corr : option (list Row)) (y_corr : option (list Z))
  : M (option (list Row) * option (list Z)) :=
  match order with
  | [] => mret (X_corr, y_corr)
  | i :: order' =>
      let x := densify (X i) in
      pred_y ← learner_predict x;
      pred_expl ← problem_explain train_examples i pred_y;
      corr ← problem_query_corrections X_corr y_corr i pred_y
                                       (Some pred_expl) X_test_tuples;
      let '(X_corr', y_corr') := corr in
      corrections_sweep train_examples X_test_tuples order' X_corr' y_corr'
  end.

Definition eval_passive_corrections (train_examples test_examples : list Z)
  : M (option (list Row) * option (list Z)) :=
  let X_test_tuples : gset Row :=
    list_to_set ((λ i, densify (X i)) <$> test_examples) in
  let expl_train_examples := list_to_set train_examples ∩ explainable in
  corrections_sweep train_examples X_test_tuples
                    (set_order expl_train_examples) None None.

(** The iteration visits every element of the set once. *)
Definition visits_each_once : Prop := ∀ s : gset Z, set_order s ≡ₚ elements s.

End Sweep.

(** The examples the oracle was asked to correct, in order. *)
Definition corrected `{Env : Environment} (evs : list event) : list Z :=
  omap (λ ev, match ev with
              | ProblemQueryCorrections _ _ i _ _ _ => Some i
              | _ => None
              end) evs.

(** What a call of the sweep may be: a prediction, an explanation against
    the training examples, or a correction with an explanation and the test
    rows. *)
Definition sweep_call `{Env : Environment} (train_examples : list Z)
    (X_test_tuples : gset Row) (ev : event) : Prop :=
  match ev with
  | LearnerPredict _ => True
  | ProblemExplain known _ _ => known = train_examples
  | ProblemQueryCorrections _ _ _ _ pred_expl T =>
      is_Some pred_expl ∧ T = X_test_tuples
  | _ => False
  end.
(** * The older loop: [mojito] (src/mojito/mojito.py)

    The same protocol without the corrections: the known examples are a
    private copy, the explanations are switched on for good, the oracle may
    improve an explanation, and the loop has an [else] branch. *)

Module Mojito.

Inductive exception :=
| AssertionError
| UnboundLocalError
| SystemExit
| Collaborator (code : Z).

Inductive outcome (A : Type) :=
| Ok (a : A)
| Raise (e : exception).
Arguments Ok {A} a.
Arguments Raise {A} e.

(** The problem, the learner and the explainer.  [select_query] answers with
    an index or raises; the other calls return. *)
Class Setting := {
  World : Type;
  Row : Type;
  Words : Type;
  Expl : Type;
  Pred : Type;
  Perf : Type;
  (* the problem's data *)
  examples : list Z;
  X : Z → Row;
  Y : Z → Z;
  X_explainable : Z → Words;
  (* the order in which a set is listed *)
  set_order : gset Z → list Z;
  (* the learner *)
  fit : World → list Row → list Z → World;
  select_query : World → gset Z → (Z + Z) * World;
  predict : World → Row → Pred * World;
  (* the explainer *)
  explain : World → Words → option Expl * World;
  (* the oracle *)
  improve : World → Z → Pred → Z * World;
  improve_explanation : World → Words → option Expl → option Expl * World;
  evaluate : World → list Row → list Z → Perf * World;
}.

Section Model.
Context `{Stg : Setting}.

Inductive event :=
| LearnerFit (Xs : list Row) (Ys : list Z)
| ProblemEvaluate (Xs : list Row) (Ys : list Z)
| LearnerSelectQuery (pool : gset Z)
| LearnerPredict (x : Row)
| ExplainerExplain (x_explainable : Words)
| ProblemImprove (i : Z) (y : Pred)
| ProblemImproveExplanation (x_explainable : Words) (g : option Expl).

Record state := State {
  world : World;
  calls : list event;
}.

Definition M (A : Type) : Type := state → outcome A * state.

Definition ret {A : Type} (a : A) : M A := λ σ, (Ok a, σ).
Definition bind {A B : Type} (m : M A) (f : A → M B) : M B := λ σ,
  match m σ with
  | (Ok a, σ') => f a σ'
  | (Raise e, σ') => (Raise e, σ')
  end.
Definition raise {A : Type} (e : exception) : M A := λ σ, (Raise e, σ).

Definition call {A : Type} (ev : event) (f : World → A * World) : M A :=
  λ σ, let '(a, w) := f (world σ) in (Ok a, State w (calls σ ++ [ev])).

Definition py_assert (c : bool) : M () :=
  if c then ret () else raise AssertionError.

Definition learner_fit (Xs : list Row) (Ys : list Z) : M () :=
  call (LearnerFit Xs Ys) (λ w, ((), fit w Xs Ys)).
Definition problem_evaluate (Xs : list Row) (Ys : list Z) : M Perf :=
  call (ProblemEvaluate Xs Ys) (λ w, evaluate w Xs Ys).
Definition learner_select_query (pool : gset Z) : M Z := λ σ,
  let '(r, w) := select_query (world σ) pool in
  (match r with inl i => Ok i | inr code => Raise (Collaborator code) end,
   State w (calls σ ++ [LearnerSelectQuery pool])).
Definition learner_predict (x : Row) : M Pred :=
  call (LearnerPredict x) (λ w, predict w x).
Definition explainer_explain (x_explainable : Words) : M (option Expl) :=
  call (ExplainerExplain x_explainable) (λ w, explain w x_explainable).
Definition problem_improve (i : Z) (y : Pred) : M Z :=
  call (ProblemImprove i y) (λ w, improve w i y).
Definition problem_improve_explanation (x_explainable : Words)
    (g : option Expl) : M (option Expl) :=
  call (ProblemImproveExplanation x_explainable g)
       (λ w, improve_explanation w x_explainable g).

(** The variables a round reads and rebinds; [explaining] is the variable
    [explain]. *)
Record locals := Locals {
  known_examples : list Z;
  explaining : bool;
  trace : list Perf;
}.

(** [0 <= start_explaining_at <= t] *)
Definition explain_from (start_explaining_at t : Z) : bool :=
  bool_decide (0 ≤ start_explaining_at) && bool_decide (start_explaining_at ≤ t).

Section Loop.
Variables train_examples test_examples : list Z.
Variable start_explaining_at : Z.
Variable improve_explanations : bool.

(** The body of the [for] loop after the [break]. *)
Definition round (t : Z) (ℓ : locals) : M locals :=
  let explain := explaining ℓ || explain_from start_explaining_at t in
  let known := known_examples ℓ in
  bind (learner_select_query
          (list_to_set train_examples ∖ list_to_set known)) (λ i,
  bind (py_assert (bool_decide (i ∈ train_examples)
                   && negb (bool_decide (i ∈ known)))) (λ _,
  bind (learner_predict (X i)) (λ y,
  let x_explainable := X_explainable i in
  bind (if explain then explainer_explain x_explainable else ret None) (λ g,
  bind (problem_improve i y) (λ y_bar,
  bind (if improve_explanations
        then problem_improve_explanation x_explainable g
        else ret None) (λ g_bar,
  let known := known ++ [i] in
  bind (learner_fit (X <$> known) (Y <$> known)) (λ _,
  bind (problem_evaluate (X <$> test_examples) (Y <$> test_examples))
       (λ perfs,
  bind (match g_bar with
        | Some _ => raise SystemExit        (* quit() *)
        | None => ret ()
        end) (λ _,
  ret (Locals known explain (trace ℓ ++ [perfs]))))))))))).

(** [for t in range(max_iters): ... else: ...]; [t] is the value the loop
    variable holds, if it was ever bound.  The [else] branch, taken when the
    range is exhausted, formats [t]. *)
Fixpoint loop (ts : list Z) (t : option Z) (ℓ : locals) : M locals :=
  match ts with
  | [] =>
      match t with
      | Some _ => ret ℓ
      | None => raise UnboundLocalError
      end
  | t' :: ts' =>
      if bool_decide (length (known_examples ℓ) = length train_examples)
      then ret ℓ
      else bind (round t' ℓ) (λ ℓ', loop ts' (Some t') ℓ')
  end.

End Loop.

Definition mojito (train_examples known_examples : list Z)
    (max_iters start_explaining_at : Z) (improve_explanations : bool)
  : M (list Perf) :=
  let test_examples :=
    set_order (list_to_set examples ∖ list_to_set train_examples) in
  bind (learner_fit (X <$> train_examples) (Y <$> train_examples)) (λ _,
  bind (problem_evaluate (X <$> test_examples) (Y <$> test_examples))
       (λ full_perfs,
  bind (learner_fit (X <$> known_examples) (Y <$> known_examples)) (λ _,
  bind (problem_evaluate (X <$> test_examples) (Y <$> test_examples))
       (λ perfs,
  bind (loop train_examples test_examples start_explaining_at
             improve_explanations (range max_iters) None
             (Locals known_examples false [perfs])) (λ ℓ,
  ret (trace ℓ)))))).

(** ** Reading a run *)

(** The examples shown to the user, in order. *)
Definition queried (evs : list event) : list Z :=
  omap (λ ev, match ev with ProblemImprove i _ => Some i | _ => None end) evs.

(** The calls of the explainer. *)
Definition explained (evs : list event) : list Words :=
  omap (λ ev, match ev with ExplainerExplain x => Some x | _ => None end) evs.

(** The datasets given to [learner.fit]. *)
Definition fitted (evs : list event) : list (list Row * list Z) :=
  omap (λ ev, match ev with LearnerFit Xs Ys => Some (Xs, Ys) | _ => None end)
       evs.

(** An oracle that always comes back with an explanation. *)
Definition oracle_explains : Prop :=
  ∀ w x g, (improve_explanation w x g).1 ≠ None.

End Model.

(** A small setting: six examples, the smallest unknown one queried first,
    an explainer that always explains; what the oracle makes of an
    explanation is left open. *)
Definition smallest (pool : gset Z) : Z + Z :=
  match elements pool with
  | [] => inr 1
  | i :: js => inl (foldr Z.min i js)
  end.

Definition toy (oracle : option Z → option Z) : Setting := {|
  World := nat;
  Row := Z;
  Words := Z;
  Expl := Z;
  Pred := Z;
  Perf := nat;
  examples := [0; 1; 2; 3; 4; 5];
  X := λ i, 10 * i;
  Y := λ i, i `mod` 2;
  X_explainable := λ i, i;
  set_order := elements;
  fit := λ w _ _, S w;
  select_query := λ w pool, (smallest pool, w);
  predict := λ w x, (0, w);
  explain := λ w x, (Some x, w);
  improve := λ w i _, (i `mod` 2, w);
  improve_explanation := λ w _ g, (oracle g, w);
  evaluate := λ w _ _, (w, w);
|}.

(** An oracle that never improves an explanation, and one that always
    does. *)
Definition silent : Setting := toy (λ _, None).
Definition eager : Setting := toy (λ g, Some (default 0 g)).

Definition start (Stg : Setting) (w : @World Stg) : @state Stg := State w [].

End Mojito.
(** * Properties *)

(** ** Class balance *)

Section Balance.

Lemma elem_of_range (n label : Z) : label ∈ range n ↔ 0 ≤ label < n.
Proof.
  unfold range. rewrite list_elem_of_fmap. setoid_rewrite elem_of_seq. split.
  - intros (k & -> & Hk). lia.
  - intros Hl. exists (Z.to_nat label). lia.
Qed.

Lemma np_min_le (x : Q) (xs : list Q) (q : Q) :
  q ∈ x :: xs → (np_min x xs <= q)%Q.
Proof.
  unfold np_min. induction xs as [|a xs IH]; simpl.
  - intros ->%list_elem_of_singleton. apply Qle_refl.
  - rewrite elem_of_cons, elem_of_cons. intros [->|[->|Hq]].
    + eapply Qle_trans; [apply Q.le_min_r|]. apply IH. left.
    + apply Q.le_min_l.
    + eapply Qle_trans; [apply Q.le_min_r|]. apply IH. by right.
Qed.

Lemma np_max_ge (x : Q) (xs : list Q) (q : Q) :
  q ∈ x :: xs → (q <= np_max x xs)%Q.
Proof.
  unfold np_max. induction xs as [|a xs IH]; simpl.
  - intros ->%list_elem_of_singleton. apply Qle_refl.
  - rewrite elem_of_cons, elem_of_cons. intros [->|[->|Hq]].
    + eapply Qle_trans; [|apply Q.le_max_r]. apply IH. left.
    + apply Q.le_max_l.
    + eapply Qle_trans; [|apply Q.le_max_r]. apply IH. by right.
Qed.

Lemma np_min_gt (x : Q) (xs : list Q) (c : Q) :
  (∀ q, q ∈ x :: xs → (c < q)%Q) → (c < np_min x xs)%Q.
Proof.
  unfold np_min. induction xs as [|a xs IH]; simpl; intros Hall.
  - apply Hall. left.
  - apply Q.min_glb_lt.
    + apply Hall. right. left.
    + apply IH. intros q Hq. apply Hall.
      apply elem_of_cons in Hq as [->|Hq]; [left | right; by right].
Qed.

Lemma np_min_ge (x : Q) (xs : list Q) (c : Q) :
  (∀ q, q ∈ x :: xs → (c <= q)%Q) → (c <= np_min x xs)%Q.
Proof.
  unfold np_min. induction xs as [|a xs IH]; simpl; intros Hall.
  - apply Hall. left.
  - apply Q.min_glb.
    + apply Hall. right. left.
    + apply IH. intros q Hq. apply Hall.
      apply elem_of_cons in Hq as [->|Hq]; [left | right; by right].
Qed.

Lemma elem_of_per_class (y_known : list Z) (n : nat) (q : Q) :
  q ∈ per_class y_known n ↔
  ∃ label, 0 ≤ label < Z.of_nat n ∧
    q = (inject_Z (Z.of_nat (count_label y_known label))
         / inject_Z (Z.of_nat (length y_known)))%Q.
Proof.
  unfold per_class. rewrite list_elem_of_fmap.
  setoid_rewrite elem_of_range.
  split; [intros (l & -> & Hl) | intros (l & Hl & ->)]; eauto.
Qed.

Lemma per_class_nonempty (y_known : list Z) (n : nat) :
  (0 < n)%nat → ∃ p ps, per_class y_known n = p :: ps.
Proof.
  intros Hn. unfold per_class, range. rewrite Nat2Z.id.
  destruct n as [|n]; [lia|]. simpl. eauto.
Qed.

Lemma count_label_le (y_known : list Z) (label : Z) :
  (count_label y_known label ≤ length y_known)%nat.
Proof. apply length_filter. Qed.

Lemma proportion_pos (c n : nat) :
  (0 < c)%nat → (0 < n)%nat →
  (0 < inject_Z (Z.of_nat c) / inject_Z (Z.of_nat n))%Q.
Proof.
  intros Hc Hn. apply Qlt_shift_div_l.
  - change 0%Q with (inject_Z 0). rewrite <- Zlt_Qlt. lia.
  - rewrite Qmult_0_l. change 0%Q with (inject_Z 0). rewrite <- Zlt_Qlt. lia.
Qed.

Lemma proportion_nonneg (c n : nat) :
  (0 <= inject_Z (Z.of_nat c) / inject_Z (Z.of_nat n))%Q.
Proof.
  destruct n as [|n].
  - simpl. unfold Qdiv, Qinv. simpl. rewrite Qmult_0_r. apply Qle_refl.
  - apply Qle_shift_div_l.
    + change 0%Q with (inject_Z 0). rewrite <- Zlt_Qlt. lia.
    + rewrite Qmult_0_l. change 0%Q with (inject_Z 0). rewrite <- Zle_Qle. lia.
Qed.

Lemma proportion_zero (n : nat) :
  (inject_Z (Z.of_nat 0) / inject_Z (Z.of_nat n) == 0)%Q.
Proof. simpl. unfold Qdiv. apply Qmult_0_l. Qed.

Lemma balance_raises (mode : bool) (y_known : list Z) (n : nat) (e : exn) :
  balance mode y_known n = Raise e → e = ValueError ∨ e = FloatingPointError.
Proof.
  unfold balance, true_divide. intros H.
  repeat case_match; simplify_eq; auto.
Qed.

(** C1, as the code has it: the ratio is the largest proportion over the
    smallest, with no clamping.  When every declared class occurs among the
    labels, the ratio is finite and at least 1.  When a declared class does
    not occur, the smallest proportion is 0 and the division is by zero: it
    raises [FloatingPointError] under [np.seterr(all='raise')] and is never a
    finite ratio. *)
Theorem balance_is_max_over_min (mode : bool) (y_known : list Z) (n : nat) :
  (0 < n)%nat →
  ((∀ label, 0 ≤ label < Z.of_nat n →
             (0 < count_label y_known label)%nat) →
   ∃ p ps, per_class y_known n = p :: ps ∧
     balance mode y_known n = Ok (Fin (np_max p ps / np_min p ps)) ∧
     (1 <= np_max p ps / np_min p ps)%Q) ∧
  ((∃ label, 0 ≤ label < Z.of_nat n ∧ count_label y_known label = 0%nat) →
   y_known ≠ [] →
   ∃ p ps, per_class y_known n = p :: ps ∧ (np_min p ps == 0)%Q ∧
     balance true y_known n = Raise FloatingPointError ∧
     ∀ q, balance mode y_known n ≠ Ok (Fin q)).
Proof.
  intros Hn. destruct (per_class_nonempty y_known n Hn) as (p & ps & Hpc).
  split.
  - intros Hall. exists p, ps. split; [done|].
    assert (0 < length y_known)%nat as Hlen.
    { pose proof (Hall 0 ltac:(lia)). pose proof (count_label_le y_known 0).
      lia. }
    assert (0 < np_min p ps)%Q as Hmin.
    { apply np_min_gt. intros q Hq. rewrite <- Hpc in Hq.
      apply elem_of_per_class in Hq as (label & Hl & ->).
      apply proportion_pos; [by apply Hall | done]. }
    assert (np_min p ps <= np_max p ps)%Q as Hle.
    { eapply Qle_trans; [apply (np_min_le p ps p) | apply (np_max_ge p ps p)]; left. }
    split.
    + unfold balance. rewrite Hpc.
      rewrite bool_decide_eq_false_2 by lia.
      unfold true_divide.
      destruct (Qeq_bool (np_min p ps) 0) eqn:Hz; [|done].
      apply Qeq_bool_eq in Hz. rewrite Hz in Hmin.
      by apply Qlt_irrefl in Hmin.
    + apply Qle_shift_div_l; [done|]. by rewrite Qmult_1_l.
  - intros (label & Hl & Hzero) Hne. exists p, ps. split; [done|].
    assert (np_min p ps == 0)%Q as Hmin.
    { apply Qle_antisym.
      - rewrite <- (proportion_zero (length y_known)).
        apply np_min_le. rewrite <- Hpc. apply elem_of_per_class.
        exists label. by rewrite Hzero.
      - apply np_min_ge. intros q Hq. rewrite <- Hpc in Hq.
        apply elem_of_per_class in Hq as (l' & _ & ->).
        apply proportion_nonneg. }
    split; [done|].
    assert (length y_known ≠ 0%nat) as Hlen by by destruct y_known.
    unfold balance. rewrite Hpc.
    rewrite bool_decide_eq_false_2 by done.
    unfold true_divide. rewrite (Qeq_eq_bool _ _ Hmin).
    split; [done|]. intros q. destruct mode; [done|].
    repeat case_match; done.
Qed.

End Balance.

Section Steps.
Context `{Env : Environment}.
Variables train_examples known_examples test_examples eval_examples : loc.
Variables max_iters start_expl_at eval_iters : Z.

Abbreviation round_ := (round train_examples known_examples test_examples
                          eval_examples start_expl_at eval_iters).
Abbreviation loop_ := (loop train_examples known_examples test_examples
                         eval_examples start_expl_at eval_iters).
Abbreviation caipi_ := (caipi train_examples known_examples test_examples
                          eval_examples max_iters start_expl_at eval_iters).
Abbreviation outcome := (round_outcome train_examples known_examples
                           test_examples eval_examples start_expl_at
                           eval_iters).
Abbreviation acquired := (acquisition train_examples known_examples
                            start_expl_at).
Abbreviation pool := (candidate_pool train_examples known_examples).
Abbreviation appended := (heap_after known_examples).
Abbreviation before_loop_ := (before_loop known_examples).
Abbreviation test_tuples_ := (test_tuples test_examples).

Ltac unfold_M :=
  unfold round, eval_passive_on_corrections, learner_select_model,
    learner_fit, learner_select_query, learner_predict, learner_get_params,
    problem_explain, problem_query_label, problem_query_corrections,
    problem_eval, dump, call, call_fallible, deref, append, lift, py_assert,
    raise, py_mod, mbind, mret, M_bind, M_ret in *.

Ltac acquire :=
  first [ by eapply acquire_label | by eapply acquire_label_and_corrections ].

Ltac eval_arg :=
  unfold eval_argument;
  repeat match goal with H : bool_decide _ = _ |- _ => rewrite H end.

Lemma legal_query_true (i : Z) (train known : list Z) :
  bool_decide (i ∈ train) && negb (bool_decide (i ∈ known)) = true ↔
  i ∈ train ∧ i ∉ known.
Proof.
  rewrite andb_true_iff, negb_true_iff, bool_decide_eq_true,
    bool_decide_eq_false. done.
Qed.

Lemma legal_query_false (i : Z) (train known : list Z) :
  bool_decide (i ∈ train) && negb (bool_decide (i ∈ known)) = false ↔
  ¬ (i ∈ train ∧ i ∉ known).
Proof.
  rewrite <- legal_query_true. destruct (_ && _); split; congruence.
Qed.

Lemma outcome_intro Xt t ℓ σ r σ' h w tr :
  outcome Xt t ℓ σ r (State h w tr) →
  σ' = State h w tr →
  outcome Xt t ℓ σ r σ'.
Proof. by intros ? ->. Qed.

(** Every run of [round] takes one of the exits. *)
Lemma round_sound Xt t ℓ σ r σ' :
  round_ Xt t ℓ σ = (r, σ') → outcome Xt t ℓ σ r σ'.
Proof.
  unfold_M. intros H.
  repeat (case_match; simplify_eq/=).
  all: repeat match goal with
       | H : _ && _ = true |- _ => apply legal_query_true in H as [? ?]
       | H : _ && _ = false |- _ => apply legal_query_false in H
       end.
  all: try (by eapply round_select_raised).
  all: try (by eapply round_assert_failed).
  all: fold (pool σ) in *.
  all: rewrite <- ?app_assoc; simpl.
  all: repeat match goal with
       | H : bool_decide (eval_iters = 0) = false |- _ =>
           apply bool_decide_eq_false in H
       | H : bool_decide (eval_iters = 0) = true |- _ =>
           apply bool_decide_eq_true in H
       end.
  all: first
    [ eapply outcome_intro;
        [ eapply round_balance_raised; [acquire | eassumption]
        | reflexivity ]
    | eapply outcome_intro;
        [ eapply round_mod_raised; [acquire | eassumption..]
        | reflexivity ]
    | eapply outcome_intro;
        [ eapply round_completed;
            [ acquire | eassumption | eassumption | eassumption
            | eval_arg; eassumption | eassumption ]
        | eval_arg; reflexivity ] ].
Qed.

(** A completed or failed round, read off the relation. *)
Lemma acquisition_inv Xt t ℓ σ i Xc yc w evs :
  acquired Xt t ℓ σ i Xc yc w evs →
  i ∈ heap σ !!! train_examples ∧ (i ∉ heap σ !!! known_examples) ∧
  (∃ w1, select_query (world σ) (pool σ) = (Ok i, w1)) ∧
  labelled evs = [i] ∧ pools evs = [pool σ] ∧
  evaluations evs = [] ∧
  (∃ rest, evs = (LearnerSelectQuery (pool σ)
                   :: LearnerPredict (densify (X i)) :: rest)) ∧
  fits evs = [].
Proof. destruct 1; naive_solver. Qed.

Lemma heap_after_known σ i :
  appended σ i !!! known_examples = heap σ !!! known_examples ++ [i].
Proof. unfold heap_after. by rewrite lookup_total_insert_eq. Qed.

Lemma heap_after_other σ i l :
  l ≠ known_examples → appended σ i !! l = heap σ !! l.
Proof. intros. unfold heap_after. by rewrite lookup_insert_ne. Qed.

(** The loop stops before a round once every training example is known. *)
Lemma loop_break Xt ts ℓ σ :
  (length (heap σ !!! train_examples) ≤ length (heap σ !!! known_examples))%nat →
  loop_ Xt ts ℓ σ = (Ok ℓ, σ).
Proof.
  intros Hlen. destruct ts as [|t ts]; [done|].
  simpl. unfold mbind, M_bind, deref, mret, M_ret. simpl.
  by rewrite bool_decide_eq_true_2.
Qed.

Lemma loop_step Xt t ts ℓ σ :
  (length (heap σ !!! known_examples) < length (heap σ !!! train_examples))%nat →
  loop_ Xt (t :: ts) ℓ σ =
  match round_ Xt t ℓ σ with
  | (Ok ℓ', σ') => loop_ Xt ts ℓ' σ'
  | (Raise e, σ') => (Raise e, σ')
  end.
Proof.
  intros Hlen. simpl. unfold mbind, M_bind, deref, mret, M_ret. simpl.
  rewrite bool_decide_eq_false_2 by lia. done.
Qed.

(** Reasoning about the loop with an invariant [I], indexed by the rounds
    still to come, and a postcondition [Q] on where the loop ends. *)
Lemma loop_rule (I : list Z → locals → state → Prop)
    (Q : result locals → state → Prop) Xt :
  (∀ ts ℓ σ, I ts ℓ σ → Q (Ok ℓ) σ) →
  (∀ t ts ℓ σ ℓ' σ',
     I (t :: ts) ℓ σ →
     (length (heap σ !!! known_examples)
      < length (heap σ !!! train_examples))%nat →
     round_ Xt t ℓ σ = (Ok ℓ', σ') → I ts ℓ' σ') →
  (∀ t ts ℓ σ e σ',
     I (t :: ts) ℓ σ →
     (length (heap σ !!! known_examples)
      < length (heap σ !!! train_examples))%nat →
     round_ Xt t ℓ σ = (Raise e, σ') → Q (Raise e) σ') →
  ∀ ts ℓ σ r σ', loop_ Xt ts ℓ σ = (r, σ') → I ts ℓ σ → Q r σ'.
Proof.
  intros Hexit Hstep Hfail ts.
  induction ts as [|t ts IH]; intros ℓ σ r σ' Hrun HI.
  - injection Hrun as <- <-. by eapply Hexit.
  - destruct (decide (length (heap σ !!! train_examples)
                      ≤ length (heap σ !!! known_examples))%nat) as [Hle|Hlt].
    + rewrite loop_break in Hrun by done. injection Hrun as <- <-.
      by eapply Hexit.
    + apply Nat.nle_gt in Hlt. rewrite loop_step in Hrun by done.
      destruct (round_ Xt t ℓ σ) as [[ℓ1|e] σ1] eqn:Hround.
      * eapply IH; [done|]. by eapply Hstep.
      * injection Hrun as <- <-. by eapply Hfail.
Qed.

(** [caipi] is the two calls before the loop, then the loop. *)
Lemma caipi_unfold σ :
  caipi_ σ =
  match loop_ (test_tuples_ σ) (range max_iters) (Locals None None [] [])
              (before_loop_ σ) with
  | (Ok ℓ, σ') => (Ok (perfs ℓ, params ℓ), σ')
  | (Raise e, σ') => (Raise e, σ')
  end.
Proof.
  unfold caipi, before_loop, test_tuples, learner_select_model, learner_fit,
    call, deref, mbind, M_bind, mret, M_ret. simpl.
  rewrite <- app_assoc. simpl.
  by destruct (loop _ _ _ _ _ _ _ _ _ _) as [[?|?] ?].
Qed.

End Steps.

Section Protocol.
Context `{Env : Environment}.
Variables train_examples known_examples test_examples eval_examples : loc.
Variables max_iters start_expl_at eval_iters : Z.

Abbreviation train σ := (heap σ !!! train_examples).
Abbreviation known σ := (heap σ !!! known_examples).
Abbreviation round := (round train_examples known_examples test_examples
                          eval_examples start_expl_at eval_iters).
Abbreviation loop := (loop train_examples known_examples test_examples
                         eval_examples start_expl_at eval_iters).
Abbreviation caipi := (caipi train_examples known_examples test_examples
                          eval_examples max_iters start_expl_at eval_iters).
Abbreviation candidate_pool := (candidate_pool train_examples known_examples).
Abbreviation heap_after := (heap_after known_examples).
Abbreviation progress := (progress train_examples known_examples).
Abbreviation preamble := (preamble known_examples).

Ltac round_cases H :=
  apply round_sound in H; inversion H; subst; clear H;
  try match goal with
      | H : acquisition _ _ _ _ _ _ _ _ _ _ _ _ |- _ =>
          inversion H; subst; clear H
      end.

Ltac same_query :=
  repeat match goal with
         | H1 : select_query ?w ?p = _, H2 : select_query ?w ?p = _ |- _ =>
             rewrite H1 in H2; simplify_eq
         end.

Lemma labelled_app (evs1 evs2 : list event) :
  labelled (evs1 ++ evs2) = labelled evs1 ++ labelled evs2.
Proof. apply omap_app. Qed.

Lemma pools_app (evs1 evs2 : list event) :
  pools (evs1 ++ evs2) = pools evs1 ++ pools evs2.
Proof. apply omap_app. Qed.

Lemma fits_app (evs1 evs2 : list event) :
  fits (evs1 ++ evs2) = fits evs1 ++ fits evs2.
Proof. apply omap_app. Qed.

(** What any round, completed or not, does to the heap and the trace. *)
Lemma round_effect Xt t ℓ σ r σ' :
  round Xt t ℓ σ = (r, σ') →
  ∃ evs,
    trace σ' = trace σ ++ evs ∧ length (pools evs) = 1%nat ∧
    ((labelled evs = [] ∧ heap σ' = heap σ ∧ ∃ e, r = Raise e) ∨
     (∃ i, labelled evs = [i] ∧ i ∈ train σ ∧ (i ∉ known σ) ∧
           heap σ' = heap_after σ i)) ∧
    (∀ ℓ', r = Ok ℓ' →
           length (perfs ℓ') = S (length (perfs ℓ)) ∧
           length (params ℓ') = S (length (params ℓ))).
Proof.
  intros Hround. round_cases Hround; simpl.
  all: eexists; split_and!;
    [ by rewrite <- ?app_assoc
    | done
    | first [ left; by eauto | right; by eauto ]
    | intros ℓ' ?; simplify_eq; simpl; rewrite ?length_app; simpl; lia ].
Qed.

Lemma progress_start σ0 ts : progress σ0 (length ts) ts σ0 [].
Proof.
  unfold progress. rewrite !app_nil_r. simpl. split_and!; auto.
Qed.

Lemma progress_weaken σ0 n ts ts' σ evs :
  (length ts' ≤ length ts)%nat →
  progress σ0 n ts σ evs → progress σ0 n ts' σ evs.
Proof. unfold progress. intros ? (?&?&?&?&?&?&?). split_and!; auto; lia. Qed.

Lemma progress_round σ0 n Xt t ts ℓ σ evs r σ' :
  progress σ0 n (t :: ts) σ evs →
  round Xt t ℓ σ = (r, σ') →
  ∃ evs', progress σ0 n ts σ' (evs ++ evs') ∧
          (length (labelled evs') ≤ 1)%nat ∧
          (∀ ℓ', r = Ok ℓ' →
                 length (labelled evs') = 1%nat ∧
                 length (perfs ℓ') = S (length (perfs ℓ)) ∧
                 length (params ℓ') = S (length (params ℓ))).
Proof.
  intros (Htr & Hkn & Hfr & Hn & Hlp & Hnd & Hsub) Hround.
  apply round_effect in Hround as (evs' & Htr' & Hp & Hheap & Hok).
  exists evs'. unfold progress.
  rewrite labelled_app, pools_app, !length_app, Hp, Htr', Htr, <- app_assoc.
  simpl in Hn.
  destruct Hheap as [(Hl & Hh & e & ->) | (i & Hl & Hin & Hnotin & Hh)];
    rewrite Hl, Hh.
  - rewrite app_nil_r. split_and!; auto; [lia | simpl; lia | done].
  - simpl. split_and!; auto.
    + by rewrite heap_after_known, Hkn, <- app_assoc.
    + intros l Hne. rewrite heap_after_other by done. auto.
    + lia.
    + lia.
    + intros H0. rewrite heap_after_known. apply NoDup_app.
      split_and!; [auto | | apply NoDup_singleton].
      intros x Hx ->%list_elem_of_singleton. done.
    + intros H0. rewrite heap_after_known.
      destruct (decide (train_examples = known_examples)) as [Heq|Hne].
      * rewrite Heq in Hin. done.
      * rewrite (lookup_total_alt (heap_after σ i)),
          (heap_after_other _ σ i) by done.
        rewrite <- lookup_total_alt.
        intros x [Hx | ->%list_elem_of_singleton]%elem_of_app; [|done].
        by apply Hsub.
Qed.

Lemma loop_progress Xt ts ℓ0 σ0 r σ' :
  loop Xt ts ℓ0 σ0 = (r, σ') →
  ∃ evs, progress σ0 (length ts) [] σ' evs ∧
         (∀ ℓ', r = Ok ℓ' →
                length (perfs ℓ') = (length (perfs ℓ0) + length (labelled evs))%nat ∧
                length (params ℓ') = (length (params ℓ0) + length (labelled evs))%nat).
Proof.
  intros Hrun.
  eapply loop_rule with
    (I := λ ts' ℓ σ, ∃ evs, progress σ0 (length ts) ts' σ evs ∧
            length (perfs ℓ) = (length (perfs ℓ0) + length (labelled evs))%nat ∧
            length (params ℓ) = (length (params ℓ0) + length (labelled evs))%nat)
    (Q := λ r σ, ∃ evs, progress σ0 (length ts) [] σ evs ∧
            (∀ ℓ', r = Ok ℓ' →
               length (perfs ℓ') = (length (perfs ℓ0) + length (labelled evs))%nat ∧
               length (params ℓ') = (length (params ℓ0) + length (labelled evs))%nat));
    [ | | | exact Hrun | ].
  - intros ts' ℓ σ (evs & Hp & Hpf & Hpr). exists evs. split.
    + eapply progress_weaken; [|done]. simpl. lia.
    + intros ℓ' [= <-]. done.
  - intros t ts' ℓ σ ℓ' σ1 (evs & Hp & Hpf & Hpr) _ Hround.
    destruct (progress_round _ _ _ _ _ _ _ _ _ _ Hp Hround)
      as (evs' & Hp' & _ & Hok).
    destruct (Hok _ eq_refl) as (Hl & Hpf' & Hpr').
    exists (evs ++ evs'). rewrite labelled_app, length_app. split; [done|]. lia.
  - intros t ts' ℓ σ e σ1 (evs & Hp & Hpf & Hpr) _ Hround.
    destruct (progress_round _ _ _ _ _ _ _ _ _ _ Hp Hround)
      as (evs' & Hp' & _ & _).
    exists (evs ++ evs'). split; [|done].
    eapply progress_weaken; [|done]. simpl. lia.
  - exists []. split; [apply progress_start | simpl; lia].
Qed.

Lemma length_range (n : Z) : length (range n) = Z.to_nat n.
Proof. unfold range. by rewrite length_fmap, length_seq. Qed.

Lemma caipi_progress σ r σ' :
  caipi σ = (r, σ') →
  ∃ evs,
    trace σ' = trace σ ++ preamble σ ++ evs ∧
    known σ' = known σ ++ labelled evs ∧
    (∀ l, l ≠ known_examples → heap σ' !! l = heap σ !! l) ∧
    (length (pools evs) ≤ Z.to_nat max_iters)%nat ∧
    (length (labelled evs) ≤ length (pools evs))%nat ∧
    (NoDup (known σ) → NoDup (known σ')) ∧
    (known σ ⊆ train σ → known σ' ⊆ train σ') ∧
    (∀ pf pr, r = Ok (pf, pr) →
              length pf = length (labelled evs) ∧
              length pr = length (labelled evs)).
Proof.
  rewrite caipi_unfold.
  destruct (loop _ _ _ _) as [r1 σ1] eqn:Hloop. intros Hrun.
  apply loop_progress in Hloop as (evs & Hp & Hok).
  destruct Hp as (Htr & Hkn & Hfr & Hn & Hlp & Hnd & Hsub).
  rewrite length_range in Hn. simpl in *.
  exists evs.
  assert (σ1 = σ') as -> by (by destruct r1; simplify_eq).
  split_and!; auto.
  - by rewrite Htr, <- app_assoc.
  - lia.
  - intros pf pr ->. destruct r1 as [ℓ'|]; simplify_eq.
    destruct (Hok _ eq_refl). simpl in *. lia.
Qed.

(** C5: right after selection the round asserts that the query is a training
    example not yet known.  If it is not, the round and the whole loop stop
    there with [AssertionError]: the state is the one left by [select_query],
    nothing else was called and nothing heap_after.  If it is, the round goes on
    to predict on the query, ask for its label and append it. *)
Theorem query_postcondition_is_asserted Xt t ℓ σ i w :
  select_query (world σ) (candidate_pool σ) = (Ok i, w) →
  (¬ (i ∈ train σ ∧ i ∉ known σ) →
   let σ' := State (heap σ) w
                   (trace σ ++ [LearnerSelectQuery (candidate_pool σ)]) in
   round Xt t ℓ σ = (Raise AssertionError, σ') ∧
   ∀ ts, (length (known σ) < length (train σ))%nat →
         loop Xt (t :: ts) ℓ σ = (Raise AssertionError, σ')) ∧
  (i ∈ train σ ∧ i ∉ known σ →
   ∃ r σ' rest,
     round Xt t ℓ σ = (r, σ') ∧ r ≠ Raise AssertionError ∧
     trace σ' = trace σ ++ LearnerSelectQuery (candidate_pool σ)
                  :: LearnerPredict (densify (X i)) :: rest ∧
     ProblemQueryLabel i ∈ rest ∧
     heap σ' = <[known_examples := known σ ++ [i]]> (heap σ)).
Proof.
  intros Hsel. split.
  - intros Hbad. cbv zeta.
    assert (round Xt t ℓ σ = (Raise AssertionError,
              State (heap σ) w
                    (trace σ ++ [LearnerSelectQuery (candidate_pool σ)])))
      as Hround.
    { destruct (round Xt t ℓ σ) as [r σ'] eqn:Hround.
      round_cases Hround; same_query; try done; by destruct Hbad. }
    split; [done|]. intros ts Hlt. rewrite loop_step by done.
    by rewrite Hround.
  - intros [Hin Hnotin].
    destruct (round Xt t ℓ σ) as [r σ'] eqn:Hround.
    exists r, σ'.
    round_cases Hround; same_query; simpl; try tauto;
      (eexists; split_and!;
         [ done
         | try done;
           match goal with
           | H : balance _ _ _ = Raise _ |- _ =>
               apply balance_raises in H as [-> | ->]; done
           end
         | by rewrite <- ?app_assoc
         | set_solver
         | done ]).
Qed.

(** C2, as the code has it: the pool handed to [select_query] is always the
    unknown examples that are explainable.  When none of them is, the learner
    is asked to choose from the empty set, whatever is still unknown; the
    round then stands or falls with the learner's answer: an exception ends
    the round at once, an index that is not an unknown training example
    fails the assertion. *)
Theorem selection_pool_is_restricted Xt t ℓ σ :
  candidate_pool σ = ∅ →
  ∃ r σ' rest,
    round Xt t ℓ σ = (r, σ') ∧
    trace σ' = trace σ ++ LearnerSelectQuery ∅ :: rest ∧
    (∀ e w, select_query (world σ) ∅ = (Raise e, w) →
            r = Raise e ∧ rest = [] ∧ heap σ' = heap σ) ∧
    (∀ i w, select_query (world σ) ∅ = (Ok i, w) →
            ¬ (i ∈ train σ ∧ i ∉ known σ) →
            r = Raise AssertionError ∧ rest = [] ∧ heap σ' = heap σ).
Proof.
  intros Hpool.
  destruct (round Xt t ℓ σ) as [r σ'] eqn:Hround.
  exists r, σ'. round_cases Hround; rewrite ?Hpool in *; simpl.
  all: eexists; split_and!;
    [done | by rewrite <- ?app_assoc
    | intros; same_query; try done
    | intros; same_query; try done ].
  all: tauto.
Qed.

(** C3: a completed round appends exactly one index to [known_examples],
    the query, which was a training example not yet known; nothing is removed
    or reordered.  Over a run, the list is the initial one followed by the
    queries, stays free of duplicates and within [train_examples], and grows
    by one per completed round. *)
Theorem known_examples_grows_by_one_per_round :
  (∀ Xt t ℓ σ ℓ' σ',
     round Xt t ℓ σ = (Ok ℓ', σ') →
     ∃ i, i ∈ train σ ∧ (i ∉ known σ) ∧ known σ' = known σ ++ [i] ∧
          length (known σ') = S (length (known σ))) ∧
  (∀ σ r σ',
     caipi σ = (r, σ') → NoDup (known σ) → known σ ⊆ train σ →
     ∃ qs, known σ' = known σ ++ qs ∧ NoDup (known σ') ∧
           known σ' ⊆ train σ' ∧
           ∀ pf pr, r = Ok (pf, pr) → length qs = length pf).
Proof.
  split.
  - intros Xt t ℓ σ ℓ' σ' Hround.
    apply round_effect in Hround as (evs & _ & _ & Hheap & _).
    destruct Hheap as [(_ & _ & e & [=]) | (i & _ & Hin & Hnotin & ->)].
    exists i. rewrite heap_after_known, length_app. simpl.
    split_and!; auto. lia.
  - intros σ r σ' Hrun Hnd Hsub.
    apply caipi_progress in Hrun
      as (evs & _ & Hkn & _ & _ & _ & Hnd' & Hsub' & Hok).
    exists (labelled evs). split_and!; auto.
    intros pf pr Hr. destruct (Hok _ _ Hr). lia.
Qed.

(** C4: [caipi] returns after starting at most [max_iters] rounds.  The loop
    stops without starting a round as soon as [known_examples] is as long as
    [train_examples].  With [max_iters = 0], or when the known examples
    already cover the training examples, no round is run: both traces are
    empty, nothing is queried and no list is touched. *)
Theorem caipi_stops_within_max_iters :
  (∀ σ, ∃ r σ' evs,
     caipi σ = (r, σ') ∧ trace σ' = trace σ ++ preamble σ ++ evs ∧
     Z.of_nat (length (pools evs)) ≤ Z.max 0 max_iters ∧
     (∀ pf pr, r = Ok (pf, pr) →
               Z.of_nat (length pf) ≤ Z.max 0 max_iters ∧
               length pr = length pf) ∧
     (max_iters = 0 → r = Ok ([], []) ∧ evs = [] ∧ heap σ' = heap σ) ∧
     ((length (train σ) ≤ length (known σ))%nat →
      r = Ok ([], []) ∧ evs = [] ∧ heap σ' = heap σ)) ∧
  (∀ Xt ts ℓ σ,
     (length (train σ) ≤ length (known σ))%nat →
     loop Xt ts ℓ σ = (Ok ℓ, σ)).
Proof.
  split; [|intros; by apply loop_break].
  intros σ. destruct (caipi σ) as [r σ'] eqn:Hrun.
  destruct (caipi_progress _ _ _ Hrun)
    as (evs & Htr & Hkn & _ & Hn & Hlp & _ & _ & Hok).
  exists r, σ', evs. split_and!; auto.
  - lia.
  - intros pf pr Hr. destruct (Hok _ _ Hr) as [Hpf Hpr]. lia.
  - intros ->. rewrite caipi_unfold in Hrun. simpl in Hrun.
    injection Hrun as <- <-. simpl in Htr.
    apply app_inv_head in Htr. by simplify_eq.
  - intros Hlen. rewrite caipi_unfold, loop_break in Hrun by done.
    injection Hrun as <- <-. simpl in Htr.
    apply app_inv_head in Htr. by simplify_eq.
Qed.

(** C10: [caipi] appends to the very list object it was given: when it
    returns (or raises), the caller's [known_examples] holds what it held
    before followed by the queried indices in the order they were labelled.
    Every other list object, among them [train_examples], [test_examples] and
    [eval_examples] when they are other objects, is left as it was. *)
Theorem known_examples_is_mutated_in_place σ r σ' :
  caipi σ = (r, σ') →
  ∃ evs,
    trace σ' = trace σ ++ preamble σ ++ evs ∧
    heap σ' !!! known_examples = heap σ !!! known_examples ++ labelled evs ∧
    ∀ l, l ≠ known_examples → heap σ' !! l = heap σ !! l.
Proof.
  intros Hrun.
  apply caipi_progress in Hrun as (evs & Htr & Hkn & Hfr & _).
  by exists evs.
Qed.

Lemma evaluations_app (evs1 evs2 : list event) :
  evaluations (evs1 ++ evs2) = evaluations evs1 ++ evaluations evs2.
Proof. apply omap_app. Qed.

(** C8: a completed round [t] calls [problem.eval] exactly once, on the known
    and the test examples, and hands it [eval_examples] exactly when
    [t mod eval_iters = 0], [None] otherwise.  It appends one record to the
    performance trace: the tuple returned by that call followed by the number
    of correction labels.  For [eval_iters ≥ 1] the remainder is defined. *)
Theorem evaluation_every_eval_iters_rounds Xt t ℓ σ :
  (1 ≤ eval_iters →
   py_mod t eval_iters = Ok (t `mod` eval_iters) ∧
   0 ≤ t `mod` eval_iters < eval_iters) ∧
  (∀ ℓ' σ',
     round Xt t ℓ σ = (Ok ℓ', σ') →
     ∃ evs perf w w',
       trace σ' = trace σ ++ evs ∧
       evaluations evs =
         [(known σ', heap σ' !!! test_examples,
           if bool_decide (t `mod` eval_iters = 0)
           then Some (heap σ' !!! eval_examples) else None,
           Round t)] ∧
       eval w (known σ') (heap σ' !!! test_examples)
            (if bool_decide (t `mod` eval_iters = 0)
             then Some (heap σ' !!! eval_examples) else None)
            (Round t) = (perf, w') ∧
       perfs ℓ' = perfs ℓ ++ [(Measured <$> perf)
                              ++ [Count (n_rows (y_corr ℓ'))]]).
Proof.
  split.
  - intros Hpos. unfold py_mod. rewrite bool_decide_eq_false_2 by lia.
    split; [done|]. apply Z.mod_pos_bound. lia.
  - intros ℓ' σ' Hround. round_cases Hround; simpl.
    all: eexists _, _, _, _; split_and!;
      [ by rewrite <- ?app_assoc | done | eassumption | done ].
Qed.

Lemma explain_flag_spec (s t : Z) :
  explain_flag s t = true ↔ 0 ≤ s ∧ s ≤ t.
Proof.
  unfold explain_flag.
  by rewrite andb_true_iff, !bool_decide_eq_true.
Qed.

Lemma explain_flag_negative (s t : Z) : s < 0 → explain_flag s t = false.
Proof.
  intros Hs. unfold explain_flag. by rewrite bool_decide_eq_false_2 by lia.
Qed.

Lemma stack_absent {A : Type} (l : list A) : stack [None; Some l] = l.
Proof. unfold stack. simpl. apply app_nil_r. Qed.

Lemma label_only_fit_mono (k1 k2 : list Z) (f : list Row * list Z) :
  k1 `prefix_of` k2 → label_only_fit k1 f → label_only_fit k2 f.
Proof. intros Hp (k & Hk & ->). exists k. split; [by etrans|done]. Qed.

(** A round without explanation, started with empty accumulators. *)
Lemma round_label_only Xt t ℓ σ r σ' :
  explain_flag start_expl_at t = false →
  X_corr ℓ = None → y_corr ℓ = None →
  round Xt t ℓ σ = (r, σ') →
  ∃ evs,
    trace σ' = trace σ ++ evs ∧
    existsb is_explain evs = false ∧
    existsb is_query_corrections evs = false ∧
    known σ `prefix_of` known σ' ∧
    Forall (label_only_fit (known σ')) (fits evs) ∧
    (∀ ℓ', r = Ok ℓ' →
           X_corr ℓ' = None ∧ y_corr ℓ' = None ∧
           ∃ perf, perfs ℓ' = perfs ℓ ++ [perf ++ [Count 0]]).
Proof.
  intros Hflag HX Hy Hround. round_cases Hround; try congruence; simpl.
  all: rewrite ?heap_after_known, ?HX, ?Hy.
  all: eexists; split_and!;
    [ by rewrite <- ?app_assoc
    | done | done
    | first [ done | by apply prefix_app_r ]
    | simpl;
      unfold X_known_of, y_known_of, vstack, hstack;
      rewrite ?HX, ?Hy, ?stack_absent, ?heap_after_known;
      repeat constructor; by eexists
    | intros ℓ' ?; simplify_eq; simpl; rewrite ?HX, ?Hy; eauto ].
Qed.

Lemma loop_label_only Xt ts ℓ0 σ0 r σ' :
  start_expl_at < 0 →
  X_corr ℓ0 = None → y_corr ℓ0 = None →
  Forall (λ p, last p = Some (Count 0)) (perfs ℓ0) →
  loop Xt ts ℓ0 σ0 = (r, σ') →
  ∃ evs,
    trace σ' = trace σ0 ++ evs ∧
    existsb is_explain evs = false ∧
    existsb is_query_corrections evs = false ∧
    known σ0 `prefix_of` known σ' ∧
    Forall (label_only_fit (known σ')) (fits evs) ∧
    (∀ ℓ', r = Ok ℓ' →
           X_corr ℓ' = None ∧ y_corr ℓ' = None ∧
           Forall (λ p, last p = Some (Count 0)) (perfs ℓ')).
Proof.
  intros Hneg HX Hy Hpf Hrun.
  eapply loop_rule with
    (I := λ (_ : list Z) ℓ σ,
            X_corr ℓ = None ∧ y_corr ℓ = None ∧
            Forall (λ p, last p = Some (Count 0)) (perfs ℓ) ∧
            ∃ evs, trace σ = trace σ0 ++ evs ∧
                   existsb is_explain evs = false ∧
                   existsb is_query_corrections evs = false ∧
                   known σ0 `prefix_of` known σ ∧
                   Forall (label_only_fit (known σ)) (fits evs))
    (Q := λ r σ,
            ∃ evs, trace σ = trace σ0 ++ evs ∧
                   existsb is_explain evs = false ∧
                   existsb is_query_corrections evs = false ∧
                   known σ0 `prefix_of` known σ ∧
                   Forall (label_only_fit (known σ)) (fits evs) ∧
                   (∀ ℓ', r = Ok ℓ' →
                          X_corr ℓ' = None ∧ y_corr ℓ' = None ∧
                          Forall (λ p, last p = Some (Count 0)) (perfs ℓ')));
    [ | | | exact Hrun | ].
  - intros _ ℓ σ (HX' & Hy' & Hpf' & evs & Htr & He & Hc & Hpre & Hfit).
    exists evs. split_and!; auto. by intros ℓ' [= <-].
  - intros t ts' ℓ σ ℓ' σ1
      (HX' & Hy' & Hpf' & evs & Htr & He & Hc & Hpre & Hfit) _ Hround.
    destruct (round_label_only _ _ _ _ _ _
                (explain_flag_negative _ t Hneg) HX' Hy' Hround)
      as (evs' & Htr' & He' & Hc' & Hpre' & Hfit' & Hok).
    destruct (Hok _ eq_refl) as (HX1 & Hy1 & perf & Hperf).
    split_and!; auto.
    + rewrite Hperf. apply Forall_app. split; [done|].
      repeat constructor. apply last_snoc.
    + exists (evs ++ evs').
      rewrite Htr', Htr, <- app_assoc, !existsb_app, He, He', Hc, Hc', fits_app.
      split_and!; auto; [by etrans|].
      apply Forall_app. split; [|done].
      eapply Forall_impl; [done|]. intros f. by apply label_only_fit_mono.
  - intros t ts' ℓ σ e σ1
      (HX' & Hy' & Hpf' & evs & Htr & He & Hc & Hpre & Hfit) _ Hround.
    destruct (round_label_only _ _ _ _ _ _
                (explain_flag_negative _ t Hneg) HX' Hy' Hround)
      as (evs' & Htr' & He' & Hc' & Hpre' & Hfit' & Hok).
    exists (evs ++ evs').
    rewrite Htr', Htr, <- app_assoc, !existsb_app, He, He', Hc, Hc', fits_app.
    split_and!; auto; [by etrans| |done].
    apply Forall_app. split; [|done].
    eapply Forall_impl; [done|]. intros f. by apply label_only_fit_mono.
  - split_and!; auto. exists []. rewrite app_nil_r. split_and!; auto.
Qed.

(** C6: in round [t], explanation and correction are requested exactly when
    [0 ≤ start_expl_at ≤ t] (for a round that got past the assertion).  With a
    negative [start_expl_at], a whole run never calls [problem.explain] nor
    [problem.query_corrections], the accumulators stay absent, every
    recorded correction count is 0, and every fit is on the rows and labels
    of the examples known at that point. *)
Theorem explanations_only_from_start_expl_at :
  (start_expl_at < 0 →
   ∀ σ r σ', caipi σ = (r, σ') →
     ∃ evs,
       trace σ' = trace σ ++ preamble σ ++ evs ∧
       existsb is_explain evs = false ∧
       existsb is_query_corrections evs = false ∧
       Forall (label_only_fit (known σ')) (fits (preamble σ ++ evs)) ∧
       ∀ pf pr, r = Ok (pf, pr) →
                Forall (λ p, last p = Some (Count 0)) pf) ∧
  (start_expl_at < 0 →
   ∀ Xt ts ℓ σ ℓ' σ',
     loop Xt ts ℓ σ = (Ok ℓ', σ') →
     X_corr ℓ = None → y_corr ℓ = None →
     X_corr ℓ' = None ∧ y_corr ℓ' = None) ∧
  (∀ Xt t ℓ σ r σ' i w,
     round Xt t ℓ σ = (r, σ') →
     select_query (world σ) (candidate_pool σ) = (Ok i, w) →
     i ∈ train σ → i ∉ known σ →
     ∃ evs,
       trace σ' = trace σ ++ evs ∧
       (existsb is_explain evs = true ↔ 0 ≤ start_expl_at ∧ start_expl_at ≤ t) ∧
       (existsb is_query_corrections evs = true
        ↔ 0 ≤ start_expl_at ∧ start_expl_at ≤ t)).
Proof.
  split_and!.
  - intros Hneg σ r σ'. rewrite caipi_unfold.
    destruct (loop _ _ _ _) as [r1 σ1] eqn:Hloop. intros Hrun.
    assert (σ1 = σ') as -> by (by destruct r1; simplify_eq).
    apply loop_label_only in Hloop
        as (evs & Htr & He & Hc & Hpre & Hfit & Hok);
      [ | done | done | done | constructor ].
    exists evs. simpl in *. split_and!; auto.
    + by rewrite Htr, <- app_assoc.
    + constructor; [by eexists|done].
    + intros pf pr ->. destruct r1 as [ℓ'|]; simplify_eq.
      by destruct (Hok _ eq_refl) as (_ & _ & ?).
  - intros Hneg Xt ts ℓ σ ℓ' σ' Hloop HX Hy.
    eapply loop_rule with
      (I := λ (_ : list Z) ℓ (_ : state), X_corr ℓ = None ∧ y_corr ℓ = None)
      (Q := λ r (_ : state),
              match r with
              | Ok ℓ1 => X_corr ℓ1 = None ∧ y_corr ℓ1 = None
              | Raise _ => True
              end)
      (r := Ok ℓ') (σ' := σ');
      [ | | | exact Hloop | done ].
    + by intros _ ℓ1 _ ?.
    + intros t ts' ℓ1 σ1 ℓ2 σ2 [HX1 Hy1] _ Hround.
      destruct (round_label_only _ _ _ _ _ _
                  (explain_flag_negative _ t Hneg) HX1 Hy1 Hround)
        as (_ & _ & _ & _ & _ & _ & Hok).
      by destruct (Hok _ eq_refl) as (? & ? & _).
    + done.
  - intros Xt t ℓ σ r σ' i w Hround Hsel Hin Hnotin.
    round_cases Hround; same_query; try tauto.
    all: eexists; split_and!; [by rewrite <- ?app_assoc | |].
    all: simpl; rewrite <- explain_flag_spec.
    all: match goal with H : explain_flag _ _ = _ |- _ => rewrite H end.
    all: done.
Qed.

Lemma length_stack_pair {A : Type} (acc : option (list A)) (l : list A) :
  length (stack [acc; Some l]) = (n_rows acc + length l)%nat.
Proof.
  unfold stack, n_rows. destruct acc; simpl; rewrite ?length_app; simpl; lia.
Qed.

Lemma round_aligned Xt t ℓ σ r σ' :
  corrections_aligned →
  aligned (X_corr ℓ) (y_corr ℓ) →
  round Xt t ℓ σ = (r, σ') →
  ∃ evs, trace σ' = trace σ ++ evs ∧ Forall well_aligned evs ∧
         (∀ ℓ', r = Ok ℓ' → aligned (X_corr ℓ') (y_corr ℓ')).
Proof.
  intros Hqc Hal Hround. round_cases Hround.
  all: try match goal with
       | H : query_corrections ?w ?a ?b ?i ?p ?e ?T = _ |- _ =>
           pose proof (Hqc w a b i p e T Hal) as Hal'; rewrite H in Hal';
           simpl in Hal'
       end.
  all: eexists; split_and!;
    [ by rewrite <- ?app_assoc
    | simpl; repeat constructor; simpl; try done;
      unfold X_known_of, y_known_of, vstack, hstack;
      rewrite !length_stack_pair, !length_fmap; congruence
    | intros ℓ' ?; simplify_eq; simpl; done ].
Qed.

(** C7: provided the oracle returns as many synthetic rows as labels, the
    accumulator has as many rows as labels after every round, hence after
    every correction step, starting from the absent accumulators of [caipi];
    it is aligned whenever it is passed on, and every dataset the learner is
    fitted on has as many rows as labels. *)
Theorem correction_rows_match_labels :
  corrections_aligned →
  (∀ Xt t ℓ σ ℓ' σ',
     aligned (X_corr ℓ) (y_corr ℓ) →
     round Xt t ℓ σ = (Ok ℓ', σ') →
     aligned (X_corr ℓ') (y_corr ℓ')) ∧
  (∀ σ r σ',
     caipi σ = (r, σ') →
     ∃ evs, trace σ' = trace σ ++ evs ∧ Forall well_aligned evs).
Proof.
  intros Hqc. split.
  - intros Xt t ℓ σ ℓ' σ' Hal Hround.
    destruct (round_aligned _ _ _ _ _ _ Hqc Hal Hround) as (_ & _ & _ & Hok).
    by apply Hok.
  - intros σ r σ'. rewrite caipi_unfold.
    destruct (loop _ _ _ _) as [r1 σ1] eqn:Hloop. intros Hrun.
    assert (σ1 = σ') as -> by (by destruct r1; simplify_eq). clear Hrun.
    eapply loop_rule with
      (I := λ (_ : list Z) ℓ σ1,
              aligned (X_corr ℓ) (y_corr ℓ) ∧
              ∃ evs, trace σ1 = trace σ ++ evs ∧ Forall well_aligned evs)
      (Q := λ (_ : result locals) σ1,
              ∃ evs, trace σ1 = trace σ ++ evs ∧ Forall well_aligned evs);
      [ | | | exact Hloop | ].
    + by intros _ ℓ σ1 [_ ?].
    + intros t ts ℓ σ1 ℓ' σ2 (Hal & evs & Htr & Hall) _ Hround.
      destruct (round_aligned _ _ _ _ _ _ Hqc Hal Hround)
        as (evs' & Htr' & Hall' & Hok).
      split; [by apply Hok|]. exists (evs ++ evs').
      rewrite Htr', Htr, <- app_assoc. split; [done|]. by apply Forall_app.
    + intros t ts ℓ σ1 e σ2 (Hal & evs & Htr & Hall) _ Hround.
      destruct (round_aligned _ _ _ _ _ _ Hqc Hal Hround)
        as (evs' & Htr' & Hall' & _).
      exists (evs ++ evs').
      rewrite Htr', Htr, <- app_assoc. split; [done|]. by apply Forall_app.
    + split; [done|]. eexists. split; [done|].
      repeat constructor; simpl; by rewrite !length_fmap.
Qed.

End Protocol.

Section Passive.
Context `{Env : Environment}.

Lemma labels_min_le (v : Z) (vs : list Z) (a : Z) :
  a ∈ v :: vs → foldr Z.min v vs ≤ a.
Proof.
  induction vs as [|b vs IH]; simpl.
  - intros ->%list_elem_of_singleton. lia.
  - rewrite elem_of_cons, elem_of_cons. intros [->|[->|Ha]].
    + specialize (IH ltac:(left)). lia.
    + lia.
    + specialize (IH ltac:(by right)). lia.
Qed.

Lemma labels_max_ge (v : Z) (vs : list Z) (a : Z) :
  a ∈ v :: vs → a ≤ foldr Z.max v vs.
Proof.
  induction vs as [|b vs IH]; simpl.
  - intros ->%list_elem_of_singleton. lia.
  - rewrite elem_of_cons, elem_of_cons. intros [->|[->|Ha]].
    + specialize (IH ltac:(left)). lia.
    + lia.
    + specialize (IH ltac:(by right)). lia.
Qed.

Lemma labels_constant (v : Z) (vs : list Z) :
  (∀ a, a ∈ v :: vs → a = v) →
  foldr Z.min v vs = v ∧ foldr Z.max v vs = v.
Proof.
  induction vs as [|b vs IH]; simpl; intros Hall; [done|].
  destruct IH as [-> ->].
  - intros a Ha. apply Hall.
    apply elem_of_cons in Ha as [->|Ha]; [left | right; by right].
  - rewrite (Hall b) by (right; left). lia.
Qed.

(** C9: in the passive evaluation, when all correction labels are the same
    the fit on the corrections alone is skipped: no error, no call, and the
    dumped corrections-only parameters are [None].  When two labels differ,
    the learner is fitted on the corrections, its parameters are kept and it
    is evaluated under the name "corr". *)
Theorem corrections_only_fit_needs_two_labels
    (train_examples test_examples eval_examples : list Z)
    (train_params : Params) (X_corr : list Row) (y_corr : list Z) (σ : state) :
  y_corr ≠ [] →
  let both_X := vstack [Some (X <$> train_examples); Some X_corr] in
  let both_y := hstack [Some (y <$> train_examples); Some y_corr] in
  ∃ σ' w_both,
    eval_passive_on_corrections train_examples test_examples eval_examples
      train_params X_corr y_corr σ = (Ok (), σ') ∧
    ((∀ a b, a ∈ y_corr → b ∈ y_corr → a = b) →
     trace σ' = trace σ ++
       [LearnerFit both_X both_y; LearnerGetParams;
        ProblemEval train_examples test_examples (Some eval_examples)
                    (Name "train+corr");
        Dump train_params None w_both]) ∧
    ((∃ a b, a ∈ y_corr ∧ b ∈ y_corr ∧ a ≠ b) →
     ∃ w_corr,
       w_corr = (get_params (fit (world σ) X_corr y_corr)).1 ∧
       trace σ' = trace σ ++
         [LearnerFit X_corr y_corr; LearnerGetParams;
          ProblemEval train_examples test_examples (Some eval_examples)
                      (Name "corr");
          LearnerFit both_X both_y; LearnerGetParams;
          ProblemEval train_examples test_examples (Some eval_examples)
                      (Name "train+corr");
          Dump train_params (Some w_corr) w_both]).
Proof.
  intros Hne. destruct y_corr as [|v vs]; [done|]. clear Hne. cbv zeta.
  unfold eval_passive_on_corrections, learner_fit, learner_get_params,
    problem_eval, dump, call, lift, labels_min, labels_max, mbind, M_bind,
    mret, M_ret. simpl.
  destruct (decide (foldr Z.min v vs = foldr Z.max v vs)) as [Heq|Hneq].
  - rewrite (bool_decide_eq_false_2 _ (λ H, H Heq)). simpl.
    repeat (case_match; simplify_eq/=).
    eexists _, _. split_and!; [done| |].
    + intros _. by rewrite <- ?app_assoc.
    + intros (lab1 & lab2 & Hin1 & Hin2 & Hdiff). exfalso.
      pose proof (labels_min_le v vs lab1 Hin1).
      pose proof (labels_max_ge v vs lab1 Hin1).
      pose proof (labels_min_le v vs lab2 Hin2).
      pose proof (labels_max_ge v vs lab2 Hin2).
      lia.
  - rewrite (bool_decide_eq_true_2 _ Hneq). simpl.
    repeat (case_match; simplify_eq/=).
    eexists _, _. split_and!; [done| |].
    + intros Hall. exfalso. apply Hneq.
      destruct (labels_constant v vs) as [-> ->]; [|done].
      intros lab1 Hin1. apply Hall; [done|left].
    + intros _. eexists. split; [done|].
      rewrite <- ?app_assoc. simpl.
      repeat match goal with H : get_params _ = _ |- _ => rewrite H end.
      done.
Qed.

End Passive.

(** * Examples on the small environment *)

Lemma decide_by_computation (P : Prop) `{Decision P} :
  bool_decide P = true → P.
Proof. apply bool_decide_eq_true_1. Qed.

Ltac by_computation :=
  match goal with
  | |- ?P => apply (@decide_by_computation P _); vm_compute; reflexivity
  end.

(** C1, counterexample: with labels [0; 0] and two declared classes, class 0
    is present and class 1 has count 0.  Nothing is clamped: the ratio is a
    division by zero, [FloatingPointError] under [np.seterr(all='raise')] and
    an infinity otherwise, and a run that reaches such a label set is cut
    short by the exception. *)
Lemma balance_divides_by_zero :
  count_label [0; 0] 0 = 2%nat ∧ count_label [0; 0] 1 = 0%nat ∧
  balance true [0; 0] 2 = Raise FloatingPointError ∧
  balance false [0; 0] 2 = Ok PInf ∧
  (toy_caipi strict 5 (-1) 1 (one_class strict 0%nat)).1 = Raise FloatingPointError.
Proof. vm_compute. done. Qed.

Lemma balance_is_max_over_min_witness :
  (∃ p ps, per_class [0; 1; 1] 2 = p :: ps ∧
     balance true [0; 1; 1] 2 = Ok (Fin (np_max p ps / np_min p ps)) ∧
     (1 <= np_max p ps / np_min p ps)%Q) ∧
  (∃ p ps, per_class [0; 0] 2 = p :: ps ∧ (np_min p ps == 0)%Q ∧
     balance true [0; 0] 2 = Raise FloatingPointError ∧
     ∀ q, balance true [0; 0] 2 ≠ Ok (Fin q)).
Proof.
  split.
  - apply (proj1 (balance_is_max_over_min true [0; 1; 1] 2 ltac:(lia))).
    intros label Hl.
    assert (label = 0 ∨ label = 1) as [-> | ->] by lia; vm_compute; lia.
  - apply (proj2 (balance_is_max_over_min true [0; 0] 2 ltac:(lia))).
    + exists 1. split; [lia | reflexivity].
    + discriminate.
Defined.

(** C2, counterexample: examples 2 and 3 are unknown, neither is
    explainable.  The learner is handed the empty pool, not the unknown
    examples; one that picks from what it is given has nothing to pick and
    the run ends with its exception. *)
Lemma selection_gets_the_empty_pool :
  let σ := two_known partly_explainable 0%nat in
  let run := toy_caipi partly_explainable 5 (-1) 1 σ in
  (list_to_set [0; 1; 2; 3] ∖ list_to_set [0; 1] : gset Z) = list_to_set [2; 3] ∧
  pools (trace run.2) = [∅] ∧
  run.1 = Raise (Raised 1) ∧
  heap run.2 = heap σ.
Proof. vm_compute. done. Qed.

Lemma selection_pool_is_restricted_witness :
  let σ := two_known partly_explainable 0%nat in
  candidate_pool 1 2 σ = ∅ ∧
  ∃ r σ' rest,
    toy_round partly_explainable (-1) 1 ∅ 0 (no_locals _) σ = (r, σ') ∧
    trace σ' = trace σ ++ LearnerSelectQuery ∅ :: rest.
Proof.
  assert (candidate_pool 1 2 (two_known partly_explainable 0%nat) = ∅) as Hpool
    by (vm_compute; reflexivity).
  split; [exact Hpool|].
  destruct (selection_pool_is_restricted (Env := partly_explainable)
              1 2 3 4 (-1) 1 ∅ 0 (no_locals _) _ Hpool)
    as (r & σ' & rest & Hround & Htr & _).
  exists r, σ', rest. split; [exact Hround | exact Htr].
Defined.

Lemma known_examples_grows_by_one_per_round_witness :
  let σ := two_known strict 0%nat in
  NoDup (heap σ !!! 2%positive) ∧
  heap σ !!! 2%positive ⊆ heap σ !!! 1%positive ∧
  ∃ r σ' qs,
    toy_caipi strict 5 (-1) 1 σ = (r, σ') ∧
    heap σ' !!! 2%positive = heap σ !!! 2%positive ++ qs ∧
    NoDup (heap σ' !!! 2%positive).
Proof.
  intros σ.
  assert (NoDup (heap σ !!! 2%positive)) as Hnd by by_computation.
  assert (heap σ !!! 2%positive ⊆ heap σ !!! 1%positive) as Hsub
    by by_computation.
  split; [exact Hnd|]. split; [exact Hsub|].
  destruct (toy_caipi strict 5 (-1) 1 σ) as [r σ'] eqn:Hrun.
  destruct (proj2 (known_examples_grows_by_one_per_round (Env := strict)
                     1 2 3 4 5 (-1) 1) σ r σ' Hrun Hnd Hsub)
    as (qs & Hkn & Hnd' & _).
  exists r, σ', qs. split; [reflexivity|]. split; [exact Hkn | exact Hnd'].
Defined.

Lemma caipi_stops_within_max_iters_witness :
  let σ := all_known strict 0%nat in
  (length (heap σ !!! 1%positive) ≤ length (heap σ !!! 2%positive))%nat ∧
  (toy_caipi strict 5 (-1) 1 σ).1 = Ok ([], []) ∧
  (toy_caipi strict 0 (-1) 1 (two_known strict 0%nat)).1 = Ok ([], []).
Proof.
  intros σ.
  assert (length (heap σ !!! 1%positive) ≤ length (heap σ !!! 2%positive))%nat
    as Hcover by by_computation.
  split; [exact Hcover|]. split.
  - destruct (proj1 (caipi_stops_within_max_iters (Env := strict)
                       1 2 3 4 5 (-1) 1) σ)
      as (r & σ' & evs & Hrun & _ & _ & _ & _ & Hstop).
    unfold toy_caipi. rewrite Hrun. exact (proj1 (Hstop Hcover)).
  - destruct (proj1 (caipi_stops_within_max_iters (Env := strict)
                       1 2 3 4 0 (-1) 1) (two_known strict 0%nat))
      as (r & σ' & evs & Hrun & _ & _ & _ & Hzero & _).
    unfold toy_caipi. rewrite Hrun. exact (proj1 (Hzero eq_refl)).
Defined.

Lemma query_postcondition_is_asserted_witness :
  let σ := two_known stubborn 0%nat in
  @select_query stubborn (world σ) (candidate_pool 1 2 σ)
    = (Ok 0, world σ) ∧
  ¬ (0 ∈ heap σ !!! 1%positive ∧ 0 ∉ heap σ !!! 2%positive) ∧
  toy_round stubborn (-1) 1 ∅ 0 (no_locals _) σ =
    (Raise AssertionError,
     State (heap σ) (world σ)
           (trace σ ++ [LearnerSelectQuery (candidate_pool 1 2 σ)])).
Proof.
  intros σ.
  assert (¬ (0 ∈ heap σ !!! 1%positive ∧ 0 ∉ heap σ !!! 2%positive)) as Hbad
    by by_computation.
  split; [reflexivity|]. split; [exact Hbad|].
  exact (proj1 (proj1 (query_postcondition_is_asserted (Env := stubborn)
                         1 2 3 4 (-1) 1 ∅ 0 (no_locals _) σ 0 (world σ)
                         eq_refl)
                      Hbad)).
Defined.

Lemma known_examples_is_mutated_in_place_witness :
  let σ := two_known strict 0%nat in
  ∃ r (σ' : @state strict) (evs : list (@event strict)),
    toy_caipi strict 5 (-1) 1 σ = (r, σ') ∧
    heap σ' !!! 2%positive = heap σ !!! 2%positive ++ labelled evs ∧
    heap σ' !! 1%positive = heap σ !! 1%positive.
Proof.
  intros σ.
  destruct (toy_caipi strict 5 (-1) 1 σ) as [r σ'] eqn:Hrun.
  destruct (known_examples_is_mutated_in_place (Env := strict)
              1 2 3 4 5 (-1) 1 σ r σ' Hrun) as (evs & _ & Hkn & Hfr).
  exists r, σ', evs. split; [reflexivity|]. split; [exact Hkn|].
  apply Hfr. discriminate.
Defined.

Lemma evaluation_every_eval_iters_rounds_witness :
  let σ := two_known strict 0%nat in
  1 ≤ 2 ∧
  py_mod 3 2 = Ok (3 `mod` 2) ∧
  ∀ ℓ' (σ' : @state strict),
    toy_round strict (-1) 2 ∅ 0 (no_locals _) σ = (Ok ℓ', σ') →
    ∃ evs : list (@event strict), trace σ' = trace σ ++ evs ∧
           evaluations evs =
             [(heap σ' !!! 2%positive, heap σ' !!! 3%positive,
               if bool_decide (0 `mod` 2 = 0)
               then Some (heap σ' !!! 4%positive) else None, Round 0)].
Proof.
  intros σ. split; [lia|]. split.
  - exact (proj1 (proj1 (evaluation_every_eval_iters_rounds (Env := strict)
                           1 2 3 4 (-1) 2 ∅ 3 (no_locals _) σ)
                        ltac:(lia))).
  - intros ℓ' σ' Hround.
    destruct (proj2 (evaluation_every_eval_iters_rounds (Env := strict)
                       1 2 3 4 (-1) 2 ∅ 0 (no_locals _) σ) ℓ' σ' Hround)
      as (evs & perf & w & w' & Htr & Hev & _).
    exists evs. split; [exact Htr | exact Hev].
Defined.

Lemma explanations_only_from_start_expl_at_witness :
  let σ := two_known strict 0%nat in
  -1 < 0 ∧
  ∃ r (σ' : @state strict) (evs : list (@event strict)),
    toy_caipi strict 5 (-1) 1 σ = (r, σ') ∧
    trace σ' = trace σ ++ preamble 2 σ ++ evs ∧
    existsb is_explain evs = false ∧
    existsb is_query_corrections evs = false.
Proof.
  intros σ. split; [lia|].
  destruct (toy_caipi strict 5 (-1) 1 σ) as [r σ'] eqn:Hrun.
  destruct (proj1 (explanations_only_from_start_expl_at (Env := strict)
                     1 2 3 4 5 (-1) 1) ltac:(lia) σ r σ' Hrun)
    as (evs & Htr & He & Hc & _).
  exists r, σ', evs. split; [reflexivity|]. split; [exact Htr|].
  split; [exact He | exact Hc].
Defined.

Lemma toy_corrections_aligned mode expl strategy :
  @corrections_aligned (toy mode expl strategy).
Proof.
  intros w Xc yc i pred_y pred_expl T. unfold aligned, n_rows. simpl.
  destruct Xc, yc; simpl; rewrite ?length_app; simpl; lia.
Defined.

Lemma correction_rows_match_labels_witness :
  let σ := two_known strict 0%nat in
  @corrections_aligned strict ∧
  ∃ r (σ' : @state strict) (evs : list (@event strict)),
    toy_caipi strict 5 1 1 σ = (r, σ') ∧
    trace σ' = trace σ ++ evs ∧
    Forall well_aligned evs.
Proof.
  intros σ.
  pose proof (toy_corrections_aligned true (list_to_set [0; 1; 2; 3; 4; 5])
                pick_min : @corrections_aligned strict) as Hqc.
  split; [exact Hqc|].
  destruct (toy_caipi strict 5 1 1 σ) as [r σ'] eqn:Hrun.
  destruct (proj2 (correction_rows_match_labels (Env := strict)
                     1 2 3 4 5 1 1 Hqc) σ r σ' Hrun) as (evs & Htr & Hall).
  exists r, σ', evs. split; [reflexivity|]. split; [exact Htr | exact Hall].
Defined.

Lemma corrections_only_fit_needs_two_labels_witness :
  let σ := two_known strict 0%nat in
  [1; 1] ≠ ([] : list Z) ∧
  (∀ a b : Z, a ∈ [1; 1] → b ∈ [1; 1] → a = b) ∧
  ∃ (σ' : @state strict) (w_both : @Params strict),
    eval_passive_on_corrections (Env := strict) [0; 1; 2; 3] [6; 7] [6]
      (0%nat : @Params strict) ([21; 31] : list (@Row strict)) [1; 1] σ
    = (Ok (), σ') ∧
    last (trace σ') = Some (Dump (0%nat : @Params strict) None w_both).
Proof.
  intros σ.
  assert (∀ a b : Z, a ∈ [1; 1] → b ∈ [1; 1] → a = b) as Hsame.
  { intros a b Ha Hb.
    apply elem_of_cons in Ha as [->|Ha]; [|apply list_elem_of_singleton in Ha];
    apply elem_of_cons in Hb as [->|Hb];
    try apply list_elem_of_singleton in Hb; congruence. }
  split; [discriminate|]. split; [exact Hsame|].
  destruct (corrections_only_fit_needs_two_labels (Env := strict)
              [0; 1; 2; 3] [6; 7] [6] (0%nat : @Params strict)
              ([21; 31] : list (@Row strict)) [1; 1] σ ltac:(discriminate))
    as (σ' & w_both & Hrun & Hskip & _).
  exists σ', w_both. split; [exact Hrun|]. rewrite (Hskip Hsame).
  rewrite last_app. reflexivity.
Defined.

(** * Properties of the drivers *)

Section SubsampleProperties.
Variable problem_y : list Z.
Variable Rng : Type.
Variable permutation : Rng → nat → list nat * Rng.
Variable scaled_round : nat → npfloat → Z.

Abbreviation in_class := (in_class problem_y).
Abbreviation valid_index := (valid_index problem_y).
Abbreviation examples_of_class := (examples_of_class problem_y).
Abbreviation sample_classes :=
  (sample_classes problem_y Rng permutation).
Abbreviation _subsample :=
  (_subsample problem_y Rng permutation scaled_round).

Lemma examples_of_class_Return (examples : list Z) (y : Z) (l : list Z) :
  examples_of_class examples y = Return l ↔
  Forall valid_index examples ∧ l = filter (in_class y) examples.
Proof.
  revert l. induction examples as [|i examples IH]; intros l.
  - simpl. split; [intros [= <-]|intros [_ ->]]; auto.
  - cbn [examples_of_class]. rewrite Forall_cons.
    destruct (getitem problem_y i) as [v|] eqn:Hi.
    + assert (valid_index i) as Hvalid by (unfold valid_index; eauto).
      destruct (examples_of_class examples y) as [rest|e] eqn:Hrest.
      * destruct (IH rest) as [[Hall ->] _]; [done|].
        destruct (decide (v = y)) as [->|Hne].
        -- rewrite bool_decide_eq_true_2 by done.
           rewrite filter_cons_True by done.
           split; [intros [= <-]|intros [_ ->]]; auto.
        -- rewrite bool_decide_eq_false_2 by done.
           rewrite filter_cons_False
             by (unfold in_class; rewrite Hi; congruence).
           split; [intros [= <-]|intros [_ ->]]; auto.
      * split; [done|]. intros [[_ Hall] _].
        destruct (IH (filter (in_class y) examples)) as [_ Hback].
        by specialize (Hback (conj Hall eq_refl)).
    + split; [done|]. intros [[[? Hsome] _] _].
      unfold valid_index in Hsome. by rewrite Hi in Hsome.
Qed.

Lemma examples_of_class_Throw (examples : list Z) (y : Z) (e : exception) :
  examples_of_class examples y = Throw e →
  e = IndexError ∧ ¬ Forall valid_index examples.
Proof.
  induction examples as [|i examples IH]; [done|].
  cbn [examples_of_class]. rewrite Forall_cons.
  destruct (getitem problem_y i) as [v|] eqn:Hi.
  - destruct (examples_of_class examples y) as [rest|e'] eqn:Hrest; [done|].
    intros [= <-]. destruct (IH eq_refl) as [-> Hnot]. split; [done|].
    intros [_ Hall]. by apply Hnot.
  - intros [= <-]. split; [done|]. intros [[? Hsome] _].
    unfold valid_index in Hsome. by rewrite Hi in Hsome.
Qed.

Lemma take_positions_Return (arr : list Z) (ks : list nat) (chosen : list Z) :
  take_positions arr ks = Return chosen ↔
  Forall2 (λ k x, arr !! k = Some x) ks chosen.
Proof.
  revert chosen. induction ks as [|k ks IH]; intros chosen; simpl.
  - split; [intros [= <-]; constructor | by inversion 1].
  - destruct (arr !! k) as [x|] eqn:Hk.
    + destruct (take_positions arr ks) as [rest|e] eqn:Hrest.
      * split.
        -- intros [= <-]. constructor; [done|]. by apply IH.
        -- inversion 1; simplify_eq. f_equal.
           assert (Return rest = Return l') as [= ->] by by apply IH.
           congruence.
      * split; [done|]. inversion 1; simplify_eq.
        by assert (@Throw (list Z) e = Return l') by by apply IH.
    + split; [done|]. inversion 1; simplify_eq.
Qed.

Lemma take_positions_Throw (arr : list Z) (ks : list nat) (e : exception) :
  take_positions arr ks = Throw e → e = IndexError.
Proof.
  induction ks as [|k ks IH]; simpl; [done|].
  destruct (arr !! k); [|by intros [= <-]].
  destruct (take_positions arr ks); [done|]. intros [= <-]. by apply IH.
Qed.

Lemma take_positions_total (arr : list Z) (ks : list nat) :
  Forall (λ k, (k < length arr)%nat) ks →
  ∃ chosen, take_positions arr ks = Return chosen.
Proof.
  induction 1 as [|k ks Hk _ [rest IH]]; simpl; [by eexists|].
  destruct (lookup_lt_is_Some_2 arr k Hk) as [x ->]. rewrite IH.
  by eexists.
Qed.

Lemma chosen_subseteq (arr : list Z) (ks : list nat) (chosen : list Z) :
  Forall2 (λ k x, arr !! k = Some x) ks chosen → chosen ⊆ arr.
Proof.
  induction 1 as [|k x ks chosen Hk _ IH]; [set_solver|].
  intros z [->|Hz]%elem_of_cons; [|by apply IH].
  by eapply list_elem_of_lookup_2.
Qed.

Lemma chosen_NoDup (arr : list Z) (ks : list nat) (chosen : list Z) :
  NoDup arr → NoDup ks →
  Forall2 (λ k x, arr !! k = Some x) ks chosen → NoDup chosen.
Proof.
  intros Harr Hks Hch. induction Hch as [|k x ks chosen Hk Hch IH].
  - constructor.
  - apply NoDup_cons in Hks as [Hnotin Hks]. apply NoDup_cons.
    split; [|by apply IH].
    intros Hx. apply Hnotin.
    clear IH Hks Hnotin. induction Hch as [|k' x' ks chosen Hk' _ IH].
    + by apply elem_of_nil in Hx.
    + apply elem_of_cons in Hx as [<-|Hx].
      * rewrite (NoDup_lookup arr k k' x Harr Hk Hk'). left.
      * right. by apply IH.
Qed.

Lemma first_positions (pi : list nat) (m n : nat) :
  pi ≡ₚ seq 0 m →
  NoDup (take n pi) ∧ Forall (λ k, (k < m)%nat) (take n pi) ∧
  length (take n pi) = Nat.min n m.
Proof.
  intros Hpi. split_and!.
  - eapply sublist_NoDup; [|apply sublist_take].
    rewrite Hpi. apply NoDup_seq.
  - apply Forall_forall. intros k Hk.
    assert (k ∈ pi) as Hin
      by (eapply elem_of_sublist; [done | apply sublist_take]).
    rewrite Hpi in Hin. apply elem_of_seq in Hin. lia.
  - rewrite length_take, (Permutation_length Hpi), length_seq. done.
Qed.

(** What each class contributes to a sample that was returned. *)
Lemma sample_classes_Return rng ys examples n acc sample rng' :
  sample_classes rng ys examples n acc = (Return sample, rng') →
  (ys = [] ∨ Forall valid_index examples) ∧
  ∃ blocks,
    sample = acc ++ concat blocks ∧
    Forall2 (λ y b, ∃ rng0,
               Forall2 (λ k x, filter (in_class y) examples !! k = Some x)
                 (take (Z.to_nat n)
                    (permutation rng0
                       (length (filter (in_class y) examples))).1) b)
            ys blocks.
Proof.
  revert rng acc. induction ys as [|y ys IH]; intros rng acc; simpl.
  - intros [= <- <-]. split; [by left|]. exists [].
    rewrite app_nil_r. split; [done|constructor].
  - destruct (examples_of_class examples y) as [l|e] eqn:Hl; [|done].
    apply examples_of_class_Return in Hl as [Hvalid ->].
    destruct (permutation rng _) as [pi rng1] eqn:Hpi.
    destruct (take_positions _ _) as [chosen|e] eqn:Hch; [|done].
    apply take_positions_Return in Hch.
    intros Hrun. apply IH in Hrun as (_ & blocks & -> & Hblocks).
    split; [by right|]. exists (chosen :: blocks).
    rewrite <- app_assoc. split; [done|]. constructor; [|done].
    exists rng. by rewrite Hpi.
Qed.

(** On valid indices, with a generator that permutes, the loop returns. *)
Lemma sample_classes_total rng ys examples n acc :
  permutes Rng permutation →
  Forall valid_index examples →
  ∃ sample rng', sample_classes rng ys examples n acc = (Return sample, rng').
Proof.
  intros Hperm Hvalid. revert rng acc.
  induction ys as [|y ys IH]; intros rng acc; simpl; [by eexists _, _|].
  destruct (examples_of_class examples y) as [l|e] eqn:Hl.
  - destruct (permutation rng (length l)) as [pi rng1] eqn:Hpi.
    destruct (first_positions pi (length l) (Z.to_nat n)) as (_ & Hlt & _).
    { specialize (Hperm rng (length l)). by rewrite Hpi in Hperm. }
    destruct (take_positions_total l _ Hlt) as [chosen ->]. apply IH.
  - apply examples_of_class_Throw in Hl as [_ Hnot]. done.
Qed.

Lemma elem_of_classes (y : Z) : y ∈ classes problem_y ↔ y ∈ problem_y.
Proof.
  unfold classes. by rewrite merge_sort_Permutation, elem_of_remove_dups.
Qed.

Lemma classes_NoDup : NoDup (classes problem_y).
Proof.
  unfold classes. rewrite merge_sort_Permutation. apply NoDup_remove_dups.
Qed.

Lemma classes_sorted : StronglySorted Z.le (classes problem_y).
Proof. unfold classes. apply StronglySorted_merge_sort; apply _. Qed.

Lemma classes_nil : length (classes problem_y) = 0%nat ↔ problem_y = [].
Proof.
  split.
  - intros Hlen. destruct problem_y as [|v vs] eqn:Hy; [done|].
    assert (v ∈ classes problem_y) as Hv
      by (apply elem_of_classes; rewrite Hy; left).
    rewrite <- Hy in Hlen. destruct (classes problem_y); [|done].
    by apply elem_of_nil in Hv.
  - intros Hy. unfold classes. by rewrite Hy.
Qed.

Lemma getitem_elem_of {A : Type} (a : list A) (i : Z) (x : A) :
  getitem a i = Some x → x ∈ a.
Proof.
  unfold getitem. repeat case_bool_decide; [| |done];
    apply list_elem_of_lookup_2.
Qed.

Lemma in_class_fun (y1 y2 i : Z) : in_class y1 i → in_class y2 i → y1 = y2.
Proof. unfold in_class. congruence. Qed.

Lemma n_sampled_per_class_ge examples prop n :
  n_sampled_per_class problem_y scaled_round examples prop = Return n → 3 ≤ n.
Proof.
  unfold n_sampled_per_class. repeat case_match; intros; simplify_eq; lia.
Qed.

(** The blocks of a returned sample, one per class. *)
Lemma blocks_in_class (ys examples : list Z) (n : Z)
    (blocks : list (list Z)) :
  Forall2 (λ y b, ∃ rng0,
             Forall2 (λ k x, filter (in_class y) examples !! k = Some x)
               (take (Z.to_nat n)
                  (permutation rng0
                     (length (filter (in_class y) examples))).1) b)
          ys blocks →
  Forall2 (λ y b, Forall (λ x, x ∈ examples ∧ in_class y x) b) ys blocks.
Proof.
  intros Hblocks. eapply Forall2_impl; [done|]. simpl.
  intros y b [rng0 Hch]. apply chosen_subseteq in Hch.
  apply Forall_forall. intros x Hx. by apply Hch, list_elem_of_filter in Hx as [? ?].
Qed.

Lemma blocks_counted (ys examples : list Z) (n : Z)
    (blocks : list (list Z)) :
  permutes Rng permutation →
  Forall2 (λ y b, ∃ rng0,
             Forall2 (λ k x, filter (in_class y) examples !! k = Some x)
               (take (Z.to_nat n)
                  (permutation rng0
                     (length (filter (in_class y) examples))).1) b)
          ys blocks →
  Forall2 (λ y b,
             length b = Nat.min (Z.to_nat n)
                                (length (filter (in_class y) examples)) ∧
             (NoDup examples → NoDup b)) ys blocks.
Proof.
  intros Hperm Hblocks. eapply Forall2_impl; [done|]. simpl.
  intros y b [rng0 Hch].
  destruct (first_positions _ _ (Z.to_nat n)
              (Hperm rng0 (length (filter (in_class y) examples))))
    as (Hnd & _ & Hlen).
  split.
  - by rewrite <- (Forall2_length _ _ _ Hch).
  - intros Hex. eapply chosen_NoDup; [|done..]. by apply NoDup_filter.
Qed.

Lemma concat_blocks_elem (ys examples : list Z) (blocks : list (list Z)) :
  Forall2 (λ y b, Forall (λ x, x ∈ examples ∧ in_class y x) b) ys blocks →
  Forall (λ x, x ∈ examples ∧ ∃ y, y ∈ ys ∧ in_class y x) (concat blocks).
Proof.
  induction 1 as [|y b ys blocks Hb _ IH]; simpl; [constructor|].
  apply Forall_app. split.
  - eapply Forall_impl; [done|]. simpl. intros x [? ?].
    split; [done|]. exists y. split; [left|done].
  - eapply Forall_impl; [done|]. simpl. intros x (? & y' & ? & ?).
    split; [done|]. exists y'. split; [by right|done].
Qed.

Lemma same_class_sorted (y : Z) (b : list Z) :
  Forall (in_class y) b → StronglySorted (label_le problem_y) b.
Proof.
  induction 1 as [|x b Hx Hb IH]; constructor; [done|].
  eapply Forall_impl; [done|]. simpl. intros x' Hx' y1 y2 H1 H2.
  rewrite (in_class_fun _ _ _ H1 Hx), (in_class_fun _ _ _ H2 Hx'). lia.
Qed.

Lemma concat_blocks_sorted (ys examples : list Z) (blocks : list (list Z)) :
  StronglySorted Z.le ys →
  Forall2 (λ y b, Forall (λ x, x ∈ examples ∧ in_class y x) b) ys blocks →
  StronglySorted (label_le problem_y) (concat blocks).
Proof.
  intros Hsorted Hblocks.
  induction Hblocks as [|y b ys blocks Hb Hblocks IH]; simpl; [constructor|].
  apply StronglySorted_inv in Hsorted as [Hsorted Hle].
  apply StronglySorted_app_2; [| |by apply IH].
  - intros x1 x2 Hx1 Hx2 y1 y2 H1 H2.
    rewrite Forall_forall in Hb. destruct (Hb _ Hx1) as [_ Hy].
    pose proof (concat_blocks_elem _ _ _ Hblocks) as Hrest.
    rewrite Forall_forall in Hrest.
    destruct (Hrest _ Hx2) as (_ & y' & Hy' & Hin').
    rewrite (in_class_fun _ _ _ H1 Hy), (in_class_fun _ _ _ H2 Hin').
    rewrite Forall_forall in Hle. by apply Hle.
  - apply (same_class_sorted y). eapply Forall_impl; [done|]. by intros x [_ ?].
Qed.

Lemma concat_blocks_NoDup (ys examples : list Z) (blocks : list (list Z)) :
  NoDup ys →
  Forall2 (λ y b, Forall (λ x, x ∈ examples ∧ in_class y x) b) ys blocks →
  Forall NoDup blocks →
  NoDup (concat blocks).
Proof.
  intros Hys Hblocks Hnd.
  induction Hblocks as [|y b ys blocks Hb Hblocks IH]; simpl; [constructor|].
  apply NoDup_cons in Hys as [Hy Hys]. apply Forall_cons in Hnd as [Hbnd Hnd].
  apply NoDup_app. split_and!; [done| |by apply IH].
  intros x Hx1 Hx2.
  rewrite Forall_forall in Hb. destruct (Hb _ Hx1) as [_ Hin].
  pose proof (concat_blocks_elem _ _ _ Hblocks) as Hrest.
  rewrite Forall_forall in Hrest.
  destruct (Hrest _ Hx2) as (_ & y' & Hy' & Hin').
  by rewrite (in_class_fun _ _ _ Hin Hin') in Hy.
Qed.

Lemma filter_other_class (y y' : Z) (b : list Z) :
  y ≠ y' → Forall (in_class y') b → filter (in_class y) b = [].
Proof.
  intros Hne Hb. induction Hb as [|x b Hx _ IH]; [done|].
  rewrite filter_cons_False; [done|].
  intros Hy. by destruct Hne; eapply in_class_fun.
Qed.

Lemma filter_same_class (y : Z) (b : list Z) :
  Forall (in_class y) b → filter (in_class y) b = b.
Proof.
  induction 1 as [|x b Hx _ IH]; [done|].
  by rewrite filter_cons_True, IH.
Qed.

Lemma concat_blocks_count (ys examples : list Z) (blocks : list (list Z))
    (f : Z → nat) (y : Z) :
  NoDup ys →
  Forall2 (λ y b, Forall (λ x, x ∈ examples ∧ in_class y x) b) ys blocks →
  Forall2 (λ y b, length b = f y) ys blocks →
  length (filter (in_class y) (concat blocks))
  = if decide (y ∈ ys) then f y else 0%nat.
Proof.
  intros Hys Hblocks Hlen. revert Hlen Hys.
  induction Hblocks as [|y' b ys blocks Hb Hblocks IH]; cbn [concat];
    intros Hlen Hys.
  - destruct (decide (y ∈ [])) as [Hin|]; [by apply elem_of_nil in Hin|done].
  - apply Forall2_cons in Hlen as [Hlb Hlen].
    apply NoDup_cons in Hys as [Hy' Hys].
    assert (Forall (in_class y') b) as Hb'
      by (eapply Forall_impl; [done|]; by intros x [_ ?]).
    rewrite filter_app, length_app, IH by done.
    destruct (decide (y = y')) as [->|Hne].
    + rewrite filter_same_class by done.
      rewrite (decide_False (P := y' ∈ ys)) by done.
      rewrite decide_True by left. lia.
    + rewrite (filter_other_class y y') by done. simpl.
      destruct (decide (y ∈ ys)) as [Hin|Hnotin].
      * by rewrite decide_True by by right.
      * rewrite decide_False; [done|].
        by intros [?|?]%elem_of_cons.
Qed.

Lemma filter_absent_class (y : Z) (examples : list Z) :
  y ∉ problem_y → filter (in_class y) examples = [].
Proof.
  intros Hy. induction examples as [|x examples IH]; [done|].
  rewrite filter_cons_False; [done|].
  intros Hin. by apply Hy, (getitem_elem_of _ x).
Qed.

(** X1: whatever the generator does, a sample that is returned only holds
    indices taken from [examples], each of them a valid row of the label
    array, and they come class by class in ascending order of their
    labels. *)
Theorem subsample_within_examples rng examples prop sample rng' :
  _subsample rng examples prop = (Return sample, rng') →
  sample ⊆ examples ∧
  Forall valid_index sample ∧
  StronglySorted (label_le problem_y) sample.
Proof.
  unfold _subsample.
  destruct (n_sampled_per_class _ _ _ _) as [n|e]; [|done].
  intros (_ & blocks & -> & Hblocks)%sample_classes_Return.
  apply blocks_in_class in Hblocks. simpl.
  pose proof (concat_blocks_elem _ _ _ Hblocks) as Helem.
  rewrite Forall_forall in Helem. split_and!.
  - intros x Hx. by apply Helem.
  - apply Forall_forall. intros x Hx.
    destruct (Helem _ Hx) as (_ & y & _ & Hy).
    unfold valid_index. rewrite Hy. eauto.
  - eapply concat_blocks_sorted; [apply classes_sorted | done].
Qed.

(** X2: with a generator that permutes, sampling from examples without
    duplicates gives a sample without duplicates. *)
Theorem subsample_no_duplicates rng examples prop sample rng' :
  permutes Rng permutation →
  NoDup examples →
  _subsample rng examples prop = (Return sample, rng') →
  NoDup sample.
Proof.
  intros Hperm Hnd. unfold _subsample.
  destruct (n_sampled_per_class _ _ _ _) as [n|e]; [|done].
  intros (_ & blocks & -> & Hblocks)%sample_classes_Return. simpl.
  eapply concat_blocks_NoDup;
    [apply classes_NoDup | by eapply blocks_in_class |].
  apply (blocks_counted _ _ _ _ Hperm) in Hblocks.
  apply Forall2_Forall_r with (Q := λ b, NoDup b) in Hblocks; [done|].
  apply Forall_forall. intros y _ b [_ Hb]. by apply Hb.
Qed.

(** X3: with a generator that permutes, every class gets the same quota,
    which is at least 3, and contributes exactly that many examples, or all
    it has when it has fewer. *)
Theorem subsample_class_quota rng examples prop sample rng' :
  permutes Rng permutation →
  _subsample rng examples prop = (Return sample, rng') →
  ∃ n, n_sampled_per_class problem_y scaled_round examples prop = Return n ∧
       3 ≤ n ∧
       ∀ y, length (filter (in_class y) sample)
            = Nat.min (Z.to_nat n) (length (filter (in_class y) examples)).
Proof.
  intros Hperm. unfold _subsample.
  destruct (n_sampled_per_class _ _ _ _) as [n|e] eqn:Hn; [|done].
  intros (_ & blocks & -> & Hblocks)%sample_classes_Return. simpl.
  exists n. split; [done|]. split; [by eapply n_sampled_per_class_ge|].
  intros y.
  rewrite (concat_blocks_count (classes problem_y) examples blocks
             (λ y, Nat.min (Z.to_nat n)
                           (length (filter (in_class y) examples))));
    [ | apply classes_NoDup | by eapply blocks_in_class | ].
  - destruct (decide (y ∈ classes problem_y)) as [Hin|Hnotin]; [done|].
    rewrite filter_absent_class by by rewrite <- elem_of_classes.
    simpl. lia.
  - eapply Forall2_impl; [by apply blocks_counted|]. by intros ? ? [? _].
Qed.

(** X4: on example indices that are rows of a non-empty label array, with
    a finite [prop] and a generator that permutes, [_subsample] returns a
    sample. *)
Theorem subsample_returns rng examples prop q :
  permutes Rng permutation →
  Forall valid_index examples →
  problem_y ≠ [] →
  prop = Fin q →
  ∃ sample rng', _subsample rng examples prop = (Return sample, rng').
Proof.
  intros Hperm Hvalid Hy ->. unfold _subsample, n_sampled_per_class.
  destruct (in_unit_interval (Fin q)).
  - rewrite bool_decide_eq_false_2 by by rewrite classes_nil.
    by apply sample_classes_total.
  - simpl. by apply sample_classes_total.
Qed.

(** X5: bad arguments are rejected before the generator is touched.  With
    an empty label array and [prop] in the unit interval the per-class quota
    divides by zero classes; a NaN or infinite [prop] cannot be converted by
    [int].  With an empty label array and a finite [prop] outside the unit
    interval nothing is divided and the sample is empty. *)
Theorem subsample_rejects_arguments rng examples prop :
  (in_unit_interval prop = true → problem_y = [] →
   _subsample rng examples prop = (Throw (Builtin ZeroDivisionError), rng)) ∧
  (prop = NaN →
   _subsample rng examples prop = (Throw (Builtin ValueError), rng)) ∧
  (prop = PInf ∨ prop = NInf →
   _subsample rng examples prop = (Throw OverflowError, rng)) ∧
  (in_unit_interval prop = false → (∃ q, prop = Fin q) → problem_y = [] →
   _subsample rng examples prop = (Return [], rng)).
Proof.
  unfold _subsample, n_sampled_per_class. split_and!.
  - intros -> Hy. rewrite bool_decide_eq_true_2 by by rewrite classes_nil.
    done.
  - by intros ->.
  - by intros [-> | ->].
  - intros -> [q ->] Hy. simpl.
    assert (classes problem_y = []) as ->; [|done].
    apply nil_length_inv. by rewrite classes_nil.
Qed.


End SubsampleProperties.

Lemma reversing_permutes : permutes nat reversing.
Proof. intros rng n. simpl. apply reverse_Permutation. Qed.

(** Ten examples of two classes, used to try [_subsample]. *)
Lemma subsample_within_examples_witness :
  _subsample [0; 1; 0; 1; 1; 0; 0; 1; 1; 1] nat reversing exact_round 0%nat
    [0; 1; 2; 3; 4; 5; 6; 7; 8; 9] (Fin (1 # 10))
  = (Return [6; 5; 2; 9; 8; 7], 2%nat) ∧
  [6; 5; 2; 9; 8; 7] ⊆ [0; 1; 2; 3; 4; 5; 6; 7; 8; 9] ∧
  StronglySorted (label_le [0; 1; 0; 1; 1; 0; 0; 1; 1; 1])
                 [6; 5; 2; 9; 8; 7].
Proof.
  assert (_subsample [0; 1; 0; 1; 1; 0; 0; 1; 1; 1] nat reversing exact_round
            0%nat [0; 1; 2; 3; 4; 5; 6; 7; 8; 9] (Fin (1 # 10))
          = (Return [6; 5; 2; 9; 8; 7], 2%nat)) as Hrun
    by (vm_compute; reflexivity).
  split; [exact Hrun|].
  destruct (subsample_within_examples _ _ _ _ _ _ _ _ _ Hrun)
    as (Hsub & _ & Hsorted).
  split; [exact Hsub | exact Hsorted].
Defined.

Lemma subsample_no_duplicates_witness :
  NoDup [0; 1; 2; 3; 4; 5; 6; 7; 8; 9] ∧
  NoDup ([6; 5; 2; 9; 8; 7] : list Z).
Proof.
  assert (NoDup [0; 1; 2; 3; 4; 5; 6; 7; 8; 9]) as Hnd by by_computation.
  split; [exact Hnd|].
  apply (subsample_no_duplicates [0; 1; 0; 1; 1; 0; 0; 1; 1; 1] nat reversing
           exact_round 0%nat [0; 1; 2; 3; 4; 5; 6; 7; 8; 9] (Fin (1 # 10))
           _ 2%nat reversing_permutes Hnd).
  vm_compute. reflexivity.
Defined.

Lemma subsample_class_quota_witness :
  ∃ n, n_sampled_per_class [0; 1; 0; 1; 1; 0; 0; 1; 1; 1] exact_round
         [0; 1; 2; 3; 4; 5; 6; 7; 8; 9] (Fin (1 # 10)) = Return n ∧
       3 ≤ n ∧
       ∀ y, length (filter (in_class [0; 1; 0; 1; 1; 0; 0; 1; 1; 1] y)
                           [6; 5; 2; 9; 8; 7])
            = Nat.min (Z.to_nat n)
                (length (filter (in_class [0; 1; 0; 1; 1; 0; 0; 1; 1; 1] y)
                                [0; 1; 2; 3; 4; 5; 6; 7; 8; 9])).
Proof.
  apply (subsample_class_quota [0; 1; 0; 1; 1; 0; 0; 1; 1; 1] nat reversing
           exact_round 0%nat [0; 1; 2; 3; 4; 5; 6; 7; 8; 9] (Fin (1 # 10))
           _ 2%nat reversing_permutes).
  vm_compute. reflexivity.
Defined.

Lemma subsample_returns_witness :
  Forall (valid_index [0; 1; 0; 1]) [0; 1; -1; 2] ∧
  ∃ sample rng',
    _subsample [0; 1; 0; 1] nat reversing exact_round 0%nat [0; 1; -1; 2]
      (Fin (5 # 1)) = (Return sample, rng').
Proof.
  assert (Forall (valid_index [0; 1; 0; 1]) [0; 1; -1; 2]) as Hvalid
    by by_computation.
  split; [exact Hvalid|].
  apply (subsample_returns [0; 1; 0; 1] nat reversing exact_round 0%nat
           [0; 1; -1; 2] (Fin (5 # 1)) (5 # 1) reversing_permutes Hvalid);
    [discriminate | reflexivity].
Defined.

Lemma subsample_rejects_arguments_witness :
  in_unit_interval (Fin (1 # 10)) = true ∧
  _subsample [] nat reversing exact_round 0%nat [] (Fin (1 # 10))
  = (Throw (Builtin ZeroDivisionError), 0%nat) ∧
  _subsample [] nat reversing exact_round 0%nat [] (Fin (2 # 1))
  = (Return [], 0%nat).
Proof.
  split; [reflexivity|].
  destruct (subsample_rejects_arguments [] nat reversing exact_round 0%nat []
              (Fin (1 # 10))) as (Hzero & _).
  destruct (subsample_rejects_arguments [] nat reversing exact_round 0%nat []
              (Fin (2 # 1))) as (_ & _ & _ & Hempty).
  split; [exact (Hzero eq_refl eq_refl)|].
  exact (Hempty eq_refl (ex_intro _ (2 # 1) eq_refl) eq_refl).
Defined.



Section FoldsProperties.
Context `{Env : Environment}.
Variable problem_y : list Z.
Variable Rng : Type.
Variable permutation : Rng → nat → list nat * Rng.
Variable scaled_round : nat → npfloat → Z.
Variable seeded_0 : Rng.
Variable new_learner : World → World.
Variables prop_known prop_eval : npfloat.
Variables max_iters start_expl_at eval_iters : Z.

Abbreviation sampled examples prop :=
  (_subsample problem_y Rng permutation scaled_round seeded_0 examples
              prop).1.
Abbreviation fold_lists :=
  (fold_lists problem_y Rng permutation scaled_round seeded_0 prop_known
              prop_eval).
Abbreviation fold :=
  (fold problem_y Rng permutation scaled_round seeded_0 new_learner
        prop_known prop_eval max_iters start_expl_at eval_iters).
Abbreviation fold_loop :=
  (fold_loop problem_y Rng permutation scaled_round seeded_0 new_learner
             prop_known prop_eval max_iters start_expl_at eval_iters).
Abbreviation eval_interactive :=
  (eval_interactive problem_y Rng permutation scaled_round seeded_0
                    new_learner prop_known prop_eval max_iters start_expl_at
                    eval_iters).

Lemma lookup_insert_fresh (h : gmap loc (list Z)) (x : list Z) (l : loc) :
  l ∈ dom h → <[fresh (dom h) := x]> h !! l = h !! l.
Proof.
  intros Hl. apply lookup_insert_ne. intros Heq.
  apply (is_fresh (dom h)). by rewrite Heq.
Qed.

Lemma dom_insert_mono (h : gmap loc (list Z)) (r : loc) (x : list Z) (l : loc) :
  l ∈ dom h → l ∈ dom (<[r := x]> h).
Proof. rewrite dom_insert_L. set_solver. Qed.

(** The four lists of a fold are new, distinct objects. *)
Lemma fold_lists_Return train test s tr kn te ev s' :
  fold_lists train test s = (Return (tr, kn, te, ev), s') →
  ∃ known evals,
    sampled train prop_known = Return known ∧
    sampled test prop_eval = Return evals ∧
    Forall (λ l, l ∉ dom (heap s.1)) [tr; kn; te; ev] ∧
    NoDup [tr; kn; te; ev] ∧
    s' = (State (<[ev := evals]> (<[te := test]> (<[kn := known]>
                   (<[tr := train]> (heap s.1)))))
                (world s.1) (trace s.1), s.2).
Proof.
  unfold fold_lists, dbind, alloc, subsample_seeded, dret. simpl.
  destruct (sampled train prop_known) as [known|e1] eqn:Hk; [|done].
  destruct (sampled test prop_eval) as [evals|e2] eqn:He; [|done].
  intros [= <- <- <- <- <-]. exists known, evals.
  set (h := heap s.1).
  set (tr := fresh (dom h)).
  set (h1 := <[tr := train]> h).
  set (kn := fresh (dom h1)).
  set (h2 := <[kn := known]> h1).
  set (te := fresh (dom h2)).
  set (h3 := <[te := test]> h2).
  set (ev := fresh (dom h3)).
  pose proof (is_fresh (dom h)) as Htr.
  pose proof (is_fresh (dom h1)) as Hkn.
  pose proof (is_fresh (dom h2)) as Hte.
  pose proof (is_fresh (dom h3)) as Hev.
  fold tr in Htr. fold kn in Hkn. fold te in Hte. fold ev in Hev.
  unfold h3 in Hev. unfold h2 in Hte, Hev. unfold h1 in Hkn, Hte, Hev.
  rewrite ?dom_insert_L in Hkn, Hte, Hev.
  split_and!; [done | done | | | done].
  - repeat constructor; set_solver.
  - repeat (apply NoDup_cons; split); [set_solver.. | apply NoDup_nil_2].
Qed.

Lemma fold_lists_Throw train test s e s' :
  fold_lists train test s = (Throw e, s') →
  s'.2 = s.2 ∧ world s'.1 = world s.1 ∧ trace s'.1 = trace s.1 ∧
  (sampled train prop_known = Throw e ∨ sampled test prop_eval = Throw e) ∧
  ∀ l, l ∈ dom (heap s.1) → heap s'.1 !! l = heap s.1 !! l.
Proof.
  unfold fold_lists, dbind, alloc, subsample_seeded, dret. simpl.
  destruct (sampled train prop_known) as [known|e1] eqn:Hk.
  - destruct (sampled test prop_eval) as [evals|e2] eqn:He; [done|].
    intros [= <- <-]. simpl. split_and!; auto.
    intros l Hl.
    rewrite !lookup_insert_fresh; auto using dom_insert_mono.
  - intros [= <- <-]. simpl. split_and!; auto.
    intros l Hl. by rewrite lookup_insert_fresh.
Qed.

(** A fold leaves the files and the list objects it found as they were. *)
Lemma fold_frame train test s r s' :
  fold train test s = (r, s') →
  s'.2 = s.2 ∧
  ∀ l, l ∈ dom (heap s.1) → heap s'.1 !! l = heap s.1 !! l.
Proof.
  unfold fold, dbind.
  destruct (fold_lists train test s) as [[[[[tr kn] te] ev]|e] s1] eqn:Hlists.
  - apply fold_lists_Return in Hlists
      as (known & evals & _ & _ & Hfresh & Hnd & ->).
    unfold make_learner, run. simpl.
    destruct (caipi _ _ _ _ _ _ _ _) as [r1 σ'] eqn:Hrun.
    apply caipi_progress in Hrun as (_ & _ & _ & Hfr & _).
    intros Hr. assert (s' = (σ', s.2)) as -> by (by destruct r1; simplify_eq).
    simpl in *. split; [done|]. intros l Hl.
    apply Forall_cons in Hfresh as [Htr Hfresh].
    apply Forall_cons in Hfresh as [Hkn Hfresh].
    apply Forall_cons in Hfresh as [Hte Hfresh].
    apply Forall_cons in Hfresh as [Hev _].
    rewrite Hfr by (by intros ->).
    rewrite !lookup_insert_ne by (by intros ->). done.
  - intros [= <- <-]. apply fold_lists_Throw in Hlists as (? & _ & _ & _ & ?).
    done.
Qed.

(** X7: a fold hands [caipi] what it requires.  With a generator that
    permutes and training indices without duplicates, the known examples are
    a duplicate-free part of the training examples, held in a list object of
    their own; when the fold returns, that object holds the subsample
    followed by one query per recorded round, still duplicate-free and within
    the training examples, and the training list is as it was. *)
Theorem fold_meets_caipi_contract train test s perf param s' :
  permutes Rng permutation →
  NoDup train →
  fold train test s = (Return (perf, param), s') →
  ∃ tr kn known qs,
    tr ≠ kn ∧
    sampled train prop_known = Return known ∧
    NoDup known ∧ known ⊆ train ∧
    heap s'.1 !! tr = Some train ∧
    heap s'.1 !!! kn = known ++ qs ∧
    NoDup (known ++ qs) ∧ known ++ qs ⊆ train ∧
    length qs = length perf.
Proof.
  intros Hperm Htrain. unfold fold, dbind.
  destruct (fold_lists train test s) as [[[[[tr kn] te] ev]|e] s1] eqn:Hlists;
    [|done].
  apply fold_lists_Return in Hlists
    as (known & evals & Hknown & _ & _ & Hnd & ->).
  unfold make_learner, run. simpl.
  destruct (caipi _ _ _ _ _ _ _ _) as [[[pf pr]|e] σ'] eqn:Hrun; [|done].
  intros [= -> -> <-].
  apply NoDup_cons in Hnd as [Htr Hnd]. apply NoDup_cons in Hnd as [Hkn Hnd].
  apply NoDup_cons in Hnd as [Hte _].
  apply not_elem_of_cons in Htr as [? Htr].
  apply not_elem_of_cons in Htr as [? Htr].
  apply not_elem_of_cons in Htr as [? _].
  apply not_elem_of_cons in Hkn as [? Hkn].
  apply not_elem_of_cons in Hkn as [? _].
  apply not_elem_of_cons in Hte as [? _].
  assert (∃ rng1, _subsample problem_y Rng permutation scaled_round seeded_0
                    train prop_known = (Return known, rng1)) as [rng1 Hsub].
  { eexists. rewrite <- Hknown. apply surjective_pairing. }
  assert (NoDup known) as Hnk by by eapply subsample_no_duplicates.
  assert (known ⊆ train) as Hsub'
    by by eapply subsample_within_examples.
  apply caipi_progress in Hrun
    as (evs & _ & Hkn' & Hfr & _ & _ & Hnd' & Hsub'' & Hok).
  simpl in *.
  rewrite !lookup_total_insert_ne, lookup_total_insert_eq in Hkn' by done.
  rewrite !lookup_total_insert_ne, lookup_total_insert_eq in Hnd' by done.
  rewrite !(lookup_total_insert_ne _ _ tr), lookup_total_insert_eq,
    !lookup_total_insert_ne, lookup_total_insert_eq in Hsub'' by done.
  assert (heap σ' !! tr = Some train) as Htr'.
  { rewrite Hfr by done.
    rewrite !lookup_insert_ne by done. apply lookup_insert_eq. }
  rewrite (lookup_total_alt (heap σ') tr), Htr' in Hsub''. simpl in Hsub''.
  exists tr, kn, known, (labelled evs).
  rewrite Hkn' in Hnd', Hsub''.
  split_and!; auto.
  by destruct (Hok _ _ eq_refl) as [-> _].
Qed.

Lemma fold_loop_files folds perfs params s r s' :
  fold_loop folds perfs params s = (r, s') →
  ∃ k new_perfs new_params,
    (k ≤ length folds)%nat ∧ length new_perfs = k ∧ length new_params = k ∧
    (r = Return () → k = length folds) ∧
    (∀ e, r = Throw e → (k < length folds)%nat) ∧
    (k = 0%nat → s'.2 = s.2) ∧
    ((0 < k)%nat →
     s'.2 = Files (Some (perfs ++ new_perfs)) (Some (params ++ new_params))) ∧
    ∀ l, l ∈ dom (heap s.1) → heap s'.1 !! l = heap s.1 !! l.
Proof.
  revert perfs params s.
  induction folds as [|[train test] folds IH]; intros perfs params s; simpl.
  - intros [= <- <-]. exists 0%nat, [], []. split_and!; auto; [done|lia].
  - unfold dbind at 1.
    destruct (fold train test s) as [[[perf param]|e] s1] eqn:Hfold.
    + apply fold_frame in Hfold as [Hfiles Hfr].
      unfold dbind at 1 2, dump_perfs, dump_params. simpl.
      intros Hrest.
      apply IH in Hrest
        as (k & np & nq & Hk & Hnp & Hnq & Hret & Hthrow & H0 & Hpos & Hfr').
      simpl in *.
      exists (S k), (perf :: np), (param :: nq).
      split_and!.
      * simpl. lia.
      * simpl. lia.
      * simpl. lia.
      * intros Hr. simpl. by rewrite (Hret Hr).
      * intros e Hr. specialize (Hthrow e Hr). simpl. lia.
      * done.
      * intros _. destruct k as [|k].
        -- apply nil_length_inv in Hnp, Hnq. subst. by rewrite (H0 eq_refl).
        -- rewrite Hpos by lia. by rewrite <- !app_assoc.
      * intros l Hl. rewrite Hfr', Hfr; [done..|].
        apply elem_of_dom. rewrite Hfr by done. by apply elem_of_dom.
    + intros [= <- <-]. apply fold_frame in Hfold as [Hfiles Hfr].
      exists 0%nat, [], []. split_and!; auto; [lia|done|intros; lia|lia].
Qed.


End FoldsProperties.

Lemma fold_meets_caipi_contract_witness :
  NoDup [0; 1; 2; 3; 4; 5; 6; 7] ∧
  ∃ perf param s' kn known qs,
    demo_fold [0; 1; 2; 3; 4; 5; 6; 7] [8; 9] empty_driver
    = (Return (perf, param), s') ∧
    heap s'.1 !!! kn = known ++ qs ∧
    NoDup (known ++ qs) ∧
    known ++ qs ⊆ [0; 1; 2; 3; 4; 5; 6; 7] ∧
    length qs = length perf.
Proof.
  assert (NoDup [0; 1; 2; 3; 4; 5; 6; 7]) as Hnd by by_computation.
  split; [exact Hnd|].
  assert (∃ perf param s',
            demo_fold [0; 1; 2; 3; 4; 5; 6; 7] [8; 9] empty_driver
            = (Return (perf, param), s')) as (perf & param & s' & Hrun)
    by (eexists _, _, _; vm_compute; reflexivity).
  destruct (fold_meets_caipi_contract (Env := strict) ten_labels nat
              reversing exact_round 0%nat reset_learner (Fin (1 # 10))
              (Fin (1 # 10)) 1 (-1) 1 _ _ _ perf param s'
              reversing_permutes Hnd Hrun)
    as (tr & kn & known & qs & _ & _ & _ & _ & _ & Hkn & Hnd' & Hsub & Hlen).
  exists perf, param, s', kn, known, qs.
  split; [exact Hrun|]. split; [exact Hkn|]. split; [exact Hnd'|].
  split; [exact Hsub | exact Hlen].
Defined.

(** * More on the rounds of [caipi] *)

Section Rounds.
Context `{Env : Environment}.
Variables train_examples known_examples test_examples eval_examples : loc.
Variables max_iters start_expl_at eval_iters : Z.

Abbreviation train σ := (heap σ !!! train_examples).
Abbreviation known σ := (heap σ !!! known_examples).
Abbreviation round := (round train_examples known_examples test_examples
                          eval_examples start_expl_at eval_iters).
Abbreviation loop := (loop train_examples known_examples test_examples
                         eval_examples start_expl_at eval_iters).
Abbreviation caipi := (caipi train_examples known_examples test_examples
                          eval_examples max_iters start_expl_at eval_iters).
Abbreviation candidate_pool := (candidate_pool train_examples known_examples).
Abbreviation heap_after := (heap_after known_examples).
Abbreviation progress := (progress train_examples known_examples).
Abbreviation preamble := (preamble known_examples).
Abbreviation before_loop := (before_loop known_examples).
Abbreviation test_tuples := (test_tuples test_examples).

Ltac round_exits H :=
  apply round_sound in H; inversion H; subst; clear H;
  try match goal with
      | H : acquisition _ _ _ _ _ _ _ _ _ _ _ _ |- _ =>
          inversion H; subst; clear H
      end.

Ltac one_query :=
  repeat match goal with
         | H1 : select_query ?w ?p = _, H2 : select_query ?w ?p = _ |- _ =>
             rewrite H1 in H2; simplify_eq
         end.

Lemma balance_warn_mode (y_known : list Z) (n : nat) :
  (0 < n)%nat → ∃ b, balance false y_known n = Ok b.
Proof.
  intros Hn. unfold balance.
  destruct (per_class_nonempty y_known n Hn) as (p & ps & ->).
  case_bool_decide; [by eauto|].
  unfold true_divide. destruct (Qeq_bool _ _); eauto.
Qed.

Lemma balance_never_asserts (s : bool) (y_known : list Z) (n : nat) :
  balance s y_known n ≠ Raise AssertionError.
Proof. unfold balance, true_divide. repeat case_match; done. Qed.


Lemma round_needs_eval_iters Xt t ℓ σ ℓ' σ' :
  eval_iters = 0 → round Xt t ℓ σ ≠ (Ok ℓ', σ').
Proof. intros H0 Hround. round_exits Hround; done. Qed.

Lemma range_pos (n : Z) : 0 < n → ∃ ts, range n = 0 :: ts.
Proof.
  intros Hn. unfold range.
  destruct (Z.to_nat n) as [|k] eqn:Hk; [lia|]. simpl. eauto.
Qed.

(** X10: with [eval_iters = 0] no round reaches its end, since [t % 0]
    raises after the query was labelled and the model refitted.  So [caipi]
    returns only when it made no round at all, with empty traces and the
    lists untouched; with a round to make it raises, after at most one more
    known example. *)
Theorem zero_eval_iters_records_nothing σ :
  eval_iters = 0 →
  (∀ pf pr σ',
     caipi σ = (Ok (pf, pr), σ') →
     pf = [] ∧ pr = [] ∧ heap σ' = heap σ ∧
     trace σ' = trace σ ++ preamble σ) ∧
  (0 < max_iters →
   (length (known σ) < length (train σ))%nat →
   ∃ e σ', caipi σ = (Raise e, σ') ∧
           (length (known σ') ≤ S (length (known σ)))%nat).
Proof.
  intros H0. split.
  - intros pf pr σ'. rewrite caipi_unfold.
    destruct (loop _ _ _ _) as [[ℓ1|e] σ1] eqn:Hloop; [|done].
    intros [= <- <- <-].
    eapply loop_rule with
      (I := λ _ ℓ σ1, ℓ = Locals None None [] [] ∧ σ1 = before_loop σ)
      (Q := λ r σ1, ∀ ℓ', r = Ok ℓ' →
                          ℓ' = Locals None None [] [] ∧ σ1 = before_loop σ)
      in Hloop.
    + destruct (Hloop _ eq_refl) as [-> ->]. done.
    + intros ts ℓ σ2 [-> ->] ℓ' [= <-]. done.
    + intros t ts ℓ σ2 ℓ' σ' _ _ Hround.
      by apply round_needs_eval_iters in Hround.
    + done.
    + done.
  - intros Hmax Hlen. rewrite caipi_unfold.
    destruct (range_pos max_iters Hmax) as [ts ->].
    rewrite loop_step by done.
    destruct (round _ _ _ _) as [[ℓ1|e] σ1] eqn:Hround.
    + by apply round_needs_eval_iters in Hround.
    + exists e, σ1. split; [done|].
      apply round_effect in Hround as (evs & _ & _ & Hheap & _).
      destruct Hheap as [(_ & -> & _)|(i & _ & _ & _ & ->)]; simpl.
      * lia.
      * rewrite heap_after_known, length_app. simpl. lia.
Qed.

Lemma round_query Xt t ℓ σ r σ' :
  (∀ w pool i w', select_query w pool = (Ok i, w') → i ∈ pool) →
  round Xt t ℓ σ = (r, σ') →
  heap σ' = heap σ ∨
  ∃ i, i ∈ candidate_pool σ ∧ heap σ' = heap_after σ i.
Proof.
  intros Hlearner Hround.
  round_exits Hround; simpl; first [by left | right; eauto].
Qed.

Lemma candidate_pool_grown σ0 σ (qs : list Z) (i : Z) :
  train σ = train σ0 →
  known σ = known σ0 ++ qs →
  Forall (λ i, i ∈ explainable ∧ i ∈ train σ0 ∧ i ∉ known σ0) qs →
  i ∈ candidate_pool σ →
  Forall (λ i, i ∈ explainable ∧ i ∈ train σ0 ∧ i ∉ known σ0) (qs ++ [i]).
Proof.
  intros Htr Hkn Hqs Hi. apply Forall_app. split; [done|].
  apply Forall_singleton. unfold candidate_pool in Hi.
  rewrite Htr, Hkn in Hi. set_solver.
Qed.

(** X11: with a learner that picks its query from the pool it is given, the
    assertion on the query never fails (an [AssertionError] can only be the
    learner's own), and every index [caipi] appends to the known examples is
    explainable, a training example, and was not known at entry. *)
Theorem queries_come_from_the_pool :
  (∀ w pool i w', select_query w pool = (Ok i, w') → i ∈ pool) →
  (∀ Xt t ℓ σ σ',
     round Xt t ℓ σ = (Raise AssertionError, σ') →
     ∃ w, select_query (world σ) (candidate_pool σ)
          = (Raise AssertionError, w)) ∧
  (∀ σ r σ',
     caipi σ = (r, σ') →
     ∃ qs, known σ' = known σ ++ qs ∧
           Forall (λ i, i ∈ explainable ∧ i ∈ train σ ∧ i ∉ known σ) qs).
Proof.
  intros Hlearner. split.
  - intros Xt t ℓ σ σ' Hround.
    round_exits Hround.
    + eauto.
    + match goal with
      | H : select_query _ _ = (Ok _, _) |- _ => apply Hlearner in H
      end.
      unfold candidate_pool in *. set_solver.
    + match goal with
      | H : balance _ _ _ = Raise _ |- _ =>
          by apply balance_never_asserts in H
      end.
    + match goal with
      | H : balance _ _ _ = Raise _ |- _ =>
          by apply balance_never_asserts in H
      end.
  - intros σ r σ'. rewrite caipi_unfold.
    destruct (loop _ _ _ _) as [r1 σ1] eqn:Hloop. intros Hrun.
    assert (σ1 = σ') as -> by (by destruct r1; simplify_eq).
    eapply loop_rule with
      (I := λ _ _ σ2, ∃ qs,
              train σ2 = train σ ∧ known σ2 = known σ ++ qs ∧
              Forall (λ i, i ∈ explainable ∧ i ∈ train σ ∧ i ∉ known σ) qs)
      (Q := λ _ σ2, ∃ qs,
              known σ2 = known σ ++ qs ∧
              Forall (λ i, i ∈ explainable ∧ i ∈ train σ ∧ i ∉ known σ) qs)
      in Hloop; [done| | | |].
    + intros ts ℓ σ2 (qs & _ & ? & ?). eauto.
    + intros t ts ℓ σ2 ℓ' σ3 (qs & Htr & Hkn & Hqs) Hlen Hround.
      assert (train_examples ≠ known_examples) as Hne
        by (intros Heq; rewrite Heq in Hlen; lia).
      apply (round_query _ _ _ _ _ _ Hlearner) in Hround
        as [->|(i & Hi & ->)]; [by eauto|].
      exists (qs ++ [i]). split_and!.
      * unfold heap_after. by rewrite lookup_total_insert_ne.
      * by rewrite heap_after_known, Hkn, <- app_assoc.
      * by eapply candidate_pool_grown.
    + intros t ts ℓ σ2 e σ3 (qs & Htr & Hkn & Hqs) Hlen Hround.
      apply (round_query _ _ _ _ _ _ Hlearner) in Hround
        as [->|(i & Hi & ->)]; [by eauto|].
      exists (qs ++ [i]). split.
      * by rewrite heap_after_known, Hkn, <- app_assoc.
      * by eapply candidate_pool_grown.
    + exists []. by rewrite app_nil_r.
Qed.

Lemma round_known_grows Xt t ℓ σ r σ' (i : Z) :
  round Xt t ℓ σ = (r, σ') → i ∈ known σ → i ∈ known σ'.
Proof.
  intros Hround Hi.
  apply round_effect in Hround as (evs & _ & _ & Hheap & _).
  destruct Hheap as [(_ & -> & _)|(j & _ & _ & _ & ->)]; [done|].
  rewrite heap_after_known. apply elem_of_app. by left.
Qed.

Lemma round_corrections Xt t ℓ σ r σ' :
  round Xt t ℓ σ = (r, σ') →
  ∃ evs, trace σ' = trace σ ++ evs ∧
    ∀ Xc yc i py pe T,
      ProblemQueryCorrections Xc yc i py pe T ∈ evs →
      T = Xt ∧ is_Some pe ∧ i ∈ known σ'.
Proof.
  intros Hround. round_exits Hround; simpl.
  all: eexists; split; [by rewrite <- ?app_assoc|].
  all: intros Xc' yc' j py pe T Hin.
  all: rewrite ?elem_of_app, ?elem_of_cons, ?elem_of_nil in Hin.
  all: decompose [or] Hin; simplify_eq; try done.
  all: split_and!; [done|by eauto|].
  all: rewrite heap_after_known; apply elem_of_app; right; left.
Qed.

(** X12: the test rows handed to the oracle are those of the test examples
    at entry.  Every call of [query_corrections] in a run gets that set, an
    explanation, and an index that is among the known examples when the run
    ends. *)
Theorem corrections_use_the_entry_test_set σ r σ' :
  caipi σ = (r, σ') →
  ∃ evs, trace σ' = trace σ ++ preamble σ ++ evs ∧
    ∀ Xc yc i py pe T,
      ProblemQueryCorrections Xc yc i py pe T ∈ evs →
      T = test_tuples σ ∧ is_Some pe ∧ i ∈ known σ'.
Proof.
  rewrite caipi_unfold.
  destruct (loop _ _ _ _) as [r1 σ1] eqn:Hloop. intros Hrun.
  assert (σ1 = σ') as -> by (by destruct r1; simplify_eq).
  eapply loop_rule with
    (I := λ _ _ σ2, ∃ evs,
            trace σ2 = trace σ ++ preamble σ ++ evs ∧
            ∀ Xc yc i py pe T,
              ProblemQueryCorrections Xc yc i py pe T ∈ evs →
              T = test_tuples σ ∧ is_Some pe ∧ i ∈ known σ2)
    (Q := λ _ σ2, ∃ evs,
            trace σ2 = trace σ ++ preamble σ ++ evs ∧
            ∀ Xc yc i py pe T,
              ProblemQueryCorrections Xc yc i py pe T ∈ evs →
              T = test_tuples σ ∧ is_Some pe ∧ i ∈ known σ2)
    in Hloop; [done|done| | |].
  - intros t ts ℓ σ2 ℓ' σ3 (evs & Htr & Hall) _ Hround.
    destruct (round_corrections _ _ _ _ _ _ Hround) as (evs' & Htr' & Hall').
    exists (evs ++ evs'). split; [by rewrite Htr', Htr, <- !app_assoc|].
    intros Xc yc i py pe T [Hin|Hin]%elem_of_app; [|by eauto].
    destruct (Hall _ _ _ _ _ _ Hin) as (? & ? & ?).
    split_and!; [done..|]. by eapply round_known_grows.
  - intros t ts ℓ σ2 e σ3 (evs & Htr & Hall) _ Hround.
    destruct (round_corrections _ _ _ _ _ _ Hround) as (evs' & Htr' & Hall').
    exists (evs ++ evs'). split; [by rewrite Htr', Htr, <- !app_assoc|].
    intros Xc yc i py pe T [Hin|Hin]%elem_of_app; [|by eauto].
    destruct (Hall _ _ _ _ _ _ Hin) as (? & ? & ?).
    split_and!; [done..|]. by eapply round_known_grows.
  - exists []. split; [by rewrite app_nil_r|].
    by intros ?????? ?%elem_of_nil.
Qed.

Lemma round_evaluations Xt t ℓ σ r σ' :
  round Xt t ℓ σ = (r, σ') →
  ∃ evs,
    trace σ' = trace σ ++ evs ∧
    known σ' = known σ ++ labelled evs ∧
    (∀ l, l ≠ known_examples → heap σ' !!! l = heap σ !!! l) ∧
    (length (labelled evs) ≤ 1)%nat ∧
    match r with
    | Raise _ => evaluations evs = []
    | Ok ℓ' =>
        ∃ i, labelled evs = [i] ∧
             length (perfs ℓ') = S (length (perfs ℓ)) ∧
             evaluations evs =
               [(known σ ++ [i], heap σ' !!! test_examples,
                 if bool_decide (t `mod` eval_iters = 0)
                 then Some (heap σ' !!! eval_examples) else None,
                 Round t)]
    end.
Proof.
  intros Hround. round_exits Hround; simpl.
  all: eexists; split; [by rewrite <- ?app_assoc|]; simpl.
  all: split; [by rewrite ?heap_after_known, ?app_nil_r|].
  all: split;
    [intros l Hl; unfold heap_after; by rewrite ?lookup_total_insert_ne|].
  all: split; [lia|].
  all: try done.
  all: eexists; split; [done|]; split; [rewrite length_app; simpl; lia|].
  all: unfold eval_argument; by rewrite heap_after_known.
Qed.

Lemma take_queries (qs : list Z) (i : Z) (j : nat) :
  (j < length qs)%nat → take (S j) (qs ++ [i]) = take (S j) qs.
Proof. intros Hj. by rewrite take_app_le by lia. Qed.

(** X13: when the test and evaluation lists are objects other than the
    list of known examples, the evaluations of a run are numbered 0, 1, 2,
    ... without gaps; evaluation [j] sees the known examples at entry
    followed by the first [j + 1] queries, the test examples at entry, and
    the evaluation examples exactly when [eval_iters] divides [j].  A run
    that returns has one evaluation and one query per recorded
    performance. *)
Theorem evaluations_follow_the_queries σ r σ' :
  test_examples ≠ known_examples →
  eval_examples ≠ known_examples →
  caipi σ = (r, σ') →
  ∃ evs,
    trace σ' = trace σ ++ preamble σ ++ evs ∧
    evaluations evs =
      (λ j : nat,
         (known σ ++ take (S j) (labelled evs),
          heap σ !!! test_examples,
          if bool_decide (Z.of_nat j `mod` eval_iters = 0)
          then Some (heap σ !!! eval_examples) else None,
          Round (Z.of_nat j))) <$> seq 0 (length (evaluations evs)) ∧
    (∀ pf pr, r = Ok (pf, pr) →
              length (evaluations evs) = length pf ∧
              length (labelled evs) = length pf).
Proof.
  intros Htest Heval. rewrite caipi_unfold.
  destruct (loop _ _ _ _) as [r1 σ1] eqn:Hloop. intros Hrun.
  assert (σ1 = σ') as -> by (by destruct r1; simplify_eq).
  set (expected := λ (qs : list Z) (j : nat),
         (known σ ++ take (S j) qs,
          heap σ !!! test_examples,
          if bool_decide (Z.of_nat j `mod` eval_iters = 0)
          then Some (heap σ !!! eval_examples) else None,
          Round (Z.of_nat j))).
  assert (∀ qs i k, (k ≤ length qs)%nat →
            expected qs <$> seq 0 k = expected (qs ++ [i]) <$> seq 0 k)
    as Hsame.
  { intros qs i k Hk. apply list_fmap_ext. intros n j Hj.
    apply lookup_seq in Hj as [-> Hj]. unfold expected.
    by rewrite take_queries by lia. }
  eapply loop_rule with
    (I := λ ts ℓ σ2, ∃ evs,
            trace σ2 = trace σ ++ preamble σ ++ evs ∧
            known σ2 = known σ ++ labelled evs ∧
            (∀ l, l ≠ known_examples → heap σ2 !!! l = heap σ !!! l) ∧
            length (labelled evs) = length (evaluations evs) ∧
            length (perfs ℓ) = length (evaluations evs) ∧
            ts = Z.of_nat <$> seq (length (evaluations evs)) (length ts) ∧
            evaluations evs
            = expected (labelled evs) <$> seq 0 (length (evaluations evs)))
    (Q := λ r σ2, ∃ evs,
            trace σ2 = trace σ ++ preamble σ ++ evs ∧
            evaluations evs
            = expected (labelled evs) <$> seq 0 (length (evaluations evs)) ∧
            (∀ ℓ', r = Ok ℓ' →
                   length (perfs ℓ') = length (evaluations evs) ∧
                   length (labelled evs) = length (evaluations evs)))
    in Hloop.
  - destruct Hloop as (evs & Htr & Hev & Hok). exists evs.
    split_and!; [done..|].
    intros pf pr ->. destruct r1 as [ℓ1|]; simplify_eq.
    destruct (Hok _ eq_refl). simpl in *. lia.
  - intros ts ℓ σ2 (evs & ? & ? & ? & ? & ? & ? & ?). exists evs.
    split_and!; [done..|]. by intros ℓ' [= <-].
  - intros t ts ℓ σ2 ℓ' σ3 (evs & Htr & Hkn & Hfr & Hlab & Hpf & Hts & Hev)
      _ Hround.
    destruct (round_evaluations _ _ _ _ _ _ Hround)
      as (evs' & Htr' & Hkn' & Hfr' & _ & i & Hlab' & Hpf' & Hev').
    simpl in Hts. injection Hts as -> Hts.
    exists (evs ++ evs').
    rewrite evaluations_app, labelled_app, Hev', Hlab', !length_app. simpl.
    rewrite !Nat.add_1_r.
    split_and!.
    + by rewrite Htr', Htr, <- !app_assoc.
    + by rewrite Hkn', Hkn, Hlab', <- app_assoc.
    + intros l Hl. by rewrite Hfr', Hfr.
    + lia.
    + lia.
    + done.
    + rewrite seq_S, fmap_app. simpl. f_equal.
      * rewrite Hev at 1. apply Hsame. lia.
      * unfold expected. rewrite Hkn, <- app_assoc.
        rewrite (take_ge (labelled evs ++ [i]))
          by (rewrite length_app; simpl; lia).
        by rewrite !Hfr', !Hfr.
  - intros t ts ℓ σ2 e σ3 (evs & Htr & Hkn & Hfr & Hlab & Hpf & Hts & Hev)
      _ Hround.
    destruct (round_evaluations _ _ _ _ _ _ Hround)
      as (evs' & Htr' & Hkn' & Hfr' & Hlab' & Hev').
    exists (evs ++ evs').
    rewrite evaluations_app, labelled_app, Hev', !app_nil_r.
    split_and!.
    + by rewrite Htr', Htr, <- !app_assoc.
    + rewrite Hev at 1.
      destruct (labelled evs') as [|i [|??]]; simpl in Hlab'; [|
        |lia].
      * by rewrite app_nil_r.
      * apply Hsame. lia.
    + done.
  - exists []. simpl. rewrite app_nil_r. split_and!; try done.
    by rewrite length_range.
Qed.

End Rounds.

Lemma pick_min_elem_of (pool : gset Z) (i : Z) : pick_min pool = Ok i → i ∈ pool.
Proof.
  unfold pick_min. destruct (elements pool) as [|j js] eqn:Hel; [done|].
  intros [= <-]. apply elem_of_elements. rewrite Hel.
  clear Hel. induction js as [|k js IH]; simpl; [left|].
  destruct (Z.min_spec k (foldr Z.min j js)) as [[_ ->]|[_ ->]].
  - right. left.
  - apply elem_of_cons in IH as [->|IH]; [left | right; by right].
Qed.


Lemma zero_eval_iters_records_nothing_witness :
  let σ := two_known strict 0%nat in
  ∃ e σ',
    toy_caipi strict 5 (-1) 0 σ = (Raise e, σ') ∧
    (length (heap σ' !!! 2%positive) ≤ S (length (heap σ !!! 2%positive)))%nat.
Proof.
  intros σ.
  apply (proj2 (zero_eval_iters_records_nothing (Env := strict) 1 2 3 4
                  5 (-1) 0 σ eq_refl)).
  - lia.
  - by_computation.
Defined.

Lemma queries_come_from_the_pool_witness :
  ∃ r σ' qs,
    toy_caipi strict 5 (-1) 1 (two_known strict 0%nat) = (r, σ') ∧
    heap σ' !!! 2%positive = [0; 1] ++ qs ∧
    Forall (λ i, i ∈ @explainable strict) qs.
Proof.
  destruct (toy_caipi strict 5 (-1) 1 (two_known strict 0%nat))
    as [r σ'] eqn:Hrun.
  destruct (proj2 (queries_come_from_the_pool (Env := strict) 1 2 3 4
                     5 (-1) 1
                     (λ w pool i w' H,
                        pick_min_elem_of pool i (f_equal fst H)))
              _ _ _ Hrun) as (qs & Hkn & Hqs).
  exists r, σ', qs. split; [reflexivity|]. split; [exact Hkn|].
  eapply Forall_impl; [exact Hqs|]. intros i Hi. exact (proj1 Hi).
Defined.

Lemma corrections_use_the_entry_test_set_witness :
  ∃ r σ' (evs : list (@event strict)),
    toy_caipi strict 5 0 1 (two_known strict 0%nat) = (r, σ') ∧
    trace σ' = preamble 2 (two_known strict 0%nat) ++ evs ∧
    ∀ Xc yc i py pe T,
      ProblemQueryCorrections Xc yc i py pe T ∈ evs →
      T = list_to_set [60; 70].
Proof.
  destruct (toy_caipi strict 5 0 1 (two_known strict 0%nat))
    as [r σ'] eqn:Hrun.
  destruct (corrections_use_the_entry_test_set (Env := strict) 1 2 3 4
              5 0 1 _ _ _ Hrun) as (evs & Htr & Hall).
  exists r, σ', evs. split; [reflexivity|]. split; [exact Htr|].
  intros Xc yc i py pe T Hin.
  exact (proj1 (Hall Xc yc i py pe T Hin)).
Defined.

Lemma evaluations_follow_the_queries_witness :
  ∃ r σ' (evs : list (@event strict)),
    toy_caipi strict 5 (-1) 1 (two_known strict 0%nat) = (r, σ') ∧
    (evaluations evs).*2 = Round <$> (Z.of_nat <$> seq 0 (length (evaluations evs))) ∧
    ∀ pf pr, r = Ok (pf, pr) → length (evaluations evs) = length pf.
Proof.
  destruct (toy_caipi strict 5 (-1) 1 (two_known strict 0%nat))
    as [r σ'] eqn:Hrun.
  assert (3 ≠ 2)%positive as H32 by discriminate.
  assert (4 ≠ 2)%positive as H42 by discriminate.
  destruct (evaluations_follow_the_queries (Env := strict) 1 2 3 4
              5 (-1) 1 _ _ _ H32 H42 Hrun) as (evs & Htr & Hev & Hok).
  exists r, σ', evs. split; [reflexivity|]. split.
  - rewrite Hev at 1. rewrite <- !list_fmap_compose. reflexivity.
  - intros pf pr Hr. exact (proj1 (Hok pf pr Hr)).
Defined.

(** * The corrections sweep of [eval_passive] *)

Section SweepProperties.
Context `{Env : Environment}.
Variable set_order : gset Z → list Z.

Abbreviation eval_passive_corrections :=
  (eval_passive_corrections set_order).

Lemma corrected_app (evs1 evs2 : list event) :
  corrected (evs1 ++ evs2) = corrected evs1 ++ corrected evs2.
Proof. apply omap_app. Qed.

Lemma corrections_sweep_trace train T order Xc yc σ :
  ∃ Xc' yc' evs σ',
    corrections_sweep train T order Xc yc σ = (Ok (Xc', yc'), σ') ∧
    heap σ' = heap σ ∧
    trace σ' = trace σ ++ evs ∧
    corrected evs = order ∧
    Forall (sweep_call train T) evs ∧
    length evs = (3 * length order)%nat ∧
    (corrections_aligned → aligned Xc yc →
     aligned Xc' yc' ∧ Forall well_aligned evs).
Proof.
  revert Xc yc σ. induction order as [|i order IH]; intros Xc yc σ.
  - exists Xc, yc, [], σ. simpl. rewrite app_nil_r.
    split_and!; done.
  - simpl.
    unfold mbind, M_bind, learner_predict, problem_explain,
      problem_query_corrections, call. simpl.
    destruct (predict (world σ) (densify (X i))) as [pred_y w1] eqn:Hp.
    simpl.
    destruct (explain w1 train i pred_y) as [e w2] eqn:He. simpl.
    destruct (query_corrections w2 Xc yc i pred_y (Some e) T)
      as [[Xc1 yc1] w3] eqn:Hq. simpl.
    match goal with
    | |- context [corrections_sweep _ _ _ _ _ ?s] =>
        destruct (IH Xc1 yc1 s)
          as (Xc' & yc' & evs & σ' & -> & Hheap & Htr & Hcorr & Hall & Hlen
              & Hal)
    end.
    simpl in *.
    eexists Xc', yc', (_ :: _ :: _ :: evs), σ'. split; [done|].
    split_and!.
    + done.
    + by rewrite Htr, <- !app_assoc.
    + simpl. by rewrite Hcorr.
    + repeat constructor; simpl; eauto.
    + simpl. lia.
    + intros Horacle Hin.
      pose proof (Horacle w2 Xc yc i pred_y (Some e) T Hin) as Hout.
      rewrite Hq in Hout. simpl in Hout.
      destruct (Hal Horacle Hout) as [? ?]. split; [done|].
      repeat constructor; simpl; done.
Qed.

(** X14: the sweep asks the oracle about every explainable training example
    exactly once, however often it occurs among the training examples and
    whatever the order of the set, and about nothing else.  It only predicts,
    explains against the whole training list and corrects against the test
    rows; the list objects are untouched.  With an oracle that returns as
    many rows as labels the accumulators stay aligned, and with no
    explainable training example nothing is called and no correction is
    obtained. *)
Theorem sweep_corrects_each_explainable_example_once train test σ :
  visits_each_once set_order →
  ∃ Xc yc evs σ',
    eval_passive_corrections train test σ = (Ok (Xc, yc), σ') ∧
    heap σ' = heap σ ∧
    trace σ' = trace σ ++ evs ∧
    NoDup (corrected evs) ∧
    (∀ i, i ∈ corrected evs ↔ i ∈ train ∧ i ∈ explainable) ∧
    Forall (sweep_call train
              (list_to_set ((λ i, densify (X i)) <$> test))) evs ∧
    length evs = (3 * size (list_to_set train ∩ explainable : gset Z))%nat ∧
    (corrections_aligned → aligned Xc yc ∧ Forall well_aligned evs) ∧
    ((∀ i, i ∈ train → i ∉ explainable) →
     Xc = None ∧ yc = None ∧ σ' = σ).
Proof.
  intros Hvisit. unfold eval_passive_corrections.
  set (pool := list_to_set train ∩ explainable : gset Z).
  set (T := list_to_set ((λ i, densify (X i)) <$> test) : gset Row).
  destruct (corrections_sweep_trace train T (set_order pool) None None σ)
    as (Xc & yc & evs & σ' & Hrun & Hheap & Htr & Hcorr & Hall & Hlen & Hal).
  exists Xc, yc, evs, σ'.
  split; [done|]. split; [done|]. split; [done|]. split_and!.
  - rewrite Hcorr, (Hvisit pool). apply NoDup_elements.
  - intros i. rewrite Hcorr, (Hvisit pool), elem_of_elements.
    unfold pool. rewrite elem_of_intersection, elem_of_list_to_set. done.
  - done.
  - rewrite Hlen, (Hvisit pool). done.
  - intros Horacle. by apply Hal.
  - intros Hnone.
    assert (pool = ∅) as Hempty.
    { apply set_eq. intros i. unfold pool.
      rewrite elem_of_intersection, elem_of_list_to_set, elem_of_empty.
      split; [intros [? ?]; by eapply Hnone | done]. }
    assert (set_order pool = []) as Horder.
    { apply Permutation_nil_r. rewrite (Hvisit pool), Hempty.
      by rewrite elements_empty. }
    rewrite Horder in Hrun. simpl in Hrun.
    unfold mret, M_ret in Hrun. by simplify_eq.
Qed.

End SweepProperties.

Lemma elements_visits_each_once : visits_each_once elements.
Proof. by intros s. Qed.

Lemma sweep_corrects_each_explainable_example_once_witness :
  ∃ Xc yc (evs : list (@event partly_explainable)) σ',
    eval_passive_corrections (Env := partly_explainable) elements
      [0; 1; 2; 3; 1] [6; 7] (two_known partly_explainable 0%nat)
    = (Ok (Xc, yc), σ') ∧
    NoDup (corrected evs) ∧
    (∀ i, i ∈ corrected evs ↔
          i ∈ [0; 1; 2; 3; 1] ∧ i ∈ @explainable partly_explainable).
Proof.
  destruct (sweep_corrects_each_explainable_example_once
              (Env := partly_explainable) elements [0; 1; 2; 3; 1] [6; 7]
              (two_known partly_explainable 0%nat) elements_visits_each_once)
    as (Xc & yc & evs & σ' & Hrun & _ & _ & Hnd & Hin & _).
  exists Xc, yc, evs, σ'. split; [exact Hrun|]. split; [exact Hnd|exact Hin].
Defined.
(** * The older loop *)

Section MojitoProperties.
Context `{Stg : Mojito.Setting}.

Abbreviation mojito := Mojito.mojito.
Abbreviation queried := Mojito.queried.
Abbreviation explained := Mojito.explained.
Abbreviation fitted := Mojito.fitted.
Abbreviation oracle_explains := Mojito.oracle_explains.

Section MojitoRounds.
Variables train_examples test_examples : list Z.
Variable start_explaining_at : Z.
Variable improve_explanations : bool.

Abbreviation mojito_round :=
  (Mojito.round train_examples test_examples start_explaining_at
                improve_explanations).
Abbreviation mojito_loop :=
  (Mojito.loop train_examples test_examples start_explaining_at
               improve_explanations).
Abbreviation dataset l := (Mojito.X <$> l, Mojito.Y <$> l).

Lemma mojito_round_spec t ℓ σ r σ' :
  mojito_round t ℓ σ = (r, σ') →
  ∃ evs,
    Mojito.calls σ' = Mojito.calls σ ++ evs ∧
    match r with
    | Mojito.Ok ℓ' =>
        ∃ i, queried evs = [i] ∧
             i ∈ train_examples ∧ (i ∉ Mojito.known_examples ℓ) ∧
             Mojito.known_examples ℓ' = Mojito.known_examples ℓ ++ [i] ∧
             Mojito.explaining ℓ'
             = (Mojito.explaining ℓ
                || Mojito.explain_from start_explaining_at t) ∧
             length (Mojito.trace ℓ') = S (length (Mojito.trace ℓ)) ∧
             length (explained evs)
             = (if Mojito.explaining ℓ' then 1 else 0)%nat ∧
             fitted evs = [dataset (Mojito.known_examples ℓ')] ∧
             (improve_explanations = true → ¬ oracle_explains)
    | Mojito.Raise e =>
        e ≠ Mojito.UnboundLocalError ∧
        (e = Mojito.SystemExit → improve_explanations = true)
    end.
Proof.
  unfold Mojito.round, Mojito.bind, Mojito.learner_select_query,
    Mojito.py_assert, Mojito.learner_predict, Mojito.explainer_explain,
    Mojito.problem_improve, Mojito.problem_improve_explanation,
    Mojito.learner_fit, Mojito.problem_evaluate, Mojito.call, Mojito.ret,
    Mojito.raise.
  intros H.
  repeat (case_match; simplify_eq/=).
  all: eexists; (split; [by rewrite <- ?app_assoc|]); simpl.
  all: try (split; [done|]; try done; by intros).
  all: repeat match goal with
       | H : _ && _ = true |- _ => apply andb_prop in H as [? ?]
       | H : bool_decide _ = true |- _ => apply bool_decide_eq_true_1 in H
       | H : negb _ = true |- _ => apply negb_true_iff in H
       | H : bool_decide _ = false |- _ => apply bool_decide_eq_false_1 in H
       end.
  all: eexists; split_and!; try done.
  all: try (intros _ Horacle;
            match goal with
            | H : Mojito.improve_explanation ?w ?x ?g = (None, _) |- _ =>
                apply (Horacle w x g); by rewrite H
            end).
  all: try by (simpl; match goal with H : _ = true |- _ => rewrite H end).
  all: try by (simpl; match goal with H : _ = false |- _ => rewrite H end).
  all: rewrite length_app; simpl; lia.
Qed.

Lemma queried_app (evs1 evs2 : list Mojito.event) :
  queried (evs1 ++ evs2) = queried evs1 ++ queried evs2.
Proof. apply omap_app. Qed.

Lemma explained_app (evs1 evs2 : list Mojito.event) :
  explained (evs1 ++ evs2) = explained evs1 ++ explained evs2.
Proof. apply omap_app. Qed.

Lemma fitted_app (evs1 evs2 : list Mojito.event) :
  fitted (evs1 ++ evs2) = fitted evs1 ++ fitted evs2.
Proof. apply omap_app. Qed.

Lemma explain_from_mono (t : Z) :
  Mojito.explain_from start_explaining_at t = true →
  Mojito.explain_from start_explaining_at (t + 1) = true.
Proof.
  unfold Mojito.explain_from.
  intros [H1 H2]%andb_prop.
  apply bool_decide_eq_true_1 in H1, H2.
  by rewrite !bool_decide_eq_true_2 by lia.
Qed.

(** The rounds of the loop that explain, among rounds [k] to [k + m - 1]. *)
Lemma explaining_rounds (k m : nat) :
  ((if Mojito.explain_from start_explaining_at (Z.of_nat k) then 1 else 0)
   + (if bool_decide (0 ≤ start_explaining_at)%Z
      then Z.to_nat (Z.of_nat (S k) + Z.of_nat m
                     - Z.max start_explaining_at (Z.of_nat (S k)))
      else 0)
   = (if bool_decide (0 ≤ start_explaining_at)%Z
      then Z.to_nat (Z.of_nat k + Z.of_nat (S m)
                     - Z.max start_explaining_at (Z.of_nat k))
      else 0))%nat.
Proof.
  unfold Mojito.explain_from.
  repeat case_bool_decide; simpl; lia.
Qed.

Lemma mojito_loop_spec (n : nat) : ∀ (k : nat) topt ℓ σ r σ',
  mojito_loop (Z.of_nat <$> seq k n) topt ℓ σ = (r, σ') →
  (Mojito.explaining ℓ = true →
   Mojito.explain_from start_explaining_at (Z.of_nat k) = true) →
  ∃ evs,
    Mojito.calls σ' = Mojito.calls σ ++ evs ∧
    match r with
    | Mojito.Ok ℓ' =>
        Mojito.known_examples ℓ' = Mojito.known_examples ℓ ++ queried evs ∧
        length (Mojito.trace ℓ')
        = (length (Mojito.trace ℓ) + length (queried evs))%nat ∧
        Forall (λ i, i ∈ train_examples ∧ i ∉ Mojito.known_examples ℓ)
               (queried evs) ∧
        NoDup (queried evs) ∧
        (length (queried evs) ≤ n)%nat ∧
        ((length (queried evs) < n)%nat →
         length (Mojito.known_examples ℓ') = length train_examples) ∧
        length (explained evs)
        = (if bool_decide (0 ≤ start_explaining_at)%Z
           then Z.to_nat (Z.of_nat k + Z.of_nat (length (queried evs))
                          - Z.max start_explaining_at (Z.of_nat k))
           else 0)%nat ∧
        fitted evs
        = (λ j, dataset (Mojito.known_examples ℓ
                         ++ take (S j) (queried evs)))
          <$> seq 0 (length (queried evs)) ∧
        ((0 < length (queried evs))%nat → improve_explanations = true →
         ¬ oracle_explains) ∧
        (topt = None → (0 < n)%nat)
    | Mojito.Raise e =>
        (e = Mojito.UnboundLocalError → n = 0%nat ∧ topt = None) ∧
        (e = Mojito.SystemExit → improve_explanations = true)
    end.
Proof.
  induction n as [|n IH]; intros k topt ℓ σ r σ' Hrun Hflag.
  - simpl in Hrun. exists []. rewrite app_nil_r.
    destruct topt as [t|]; injection Hrun as <- <-.
    + simpl. rewrite app_nil_r.
      split_and!;
        first [done | by constructor | lia | case_bool_decide; lia].
    + done.
  - simpl in Hrun. case_bool_decide as Hlen.
    + injection Hrun as <- <-. exists []. simpl. rewrite !app_nil_r.
      split_and!;
        first [done | by constructor | lia | case_bool_decide; lia].
    + unfold Mojito.bind in Hrun.
      destruct (mojito_round (Z.of_nat k) ℓ σ) as [[ℓ1|e] σ1] eqn:Hround.
      * apply mojito_round_spec in Hround
          as (evs1 & Hc1 & i & Hq1 & Hin & Hnotin & Hkn1 & Hex1 & Htr1
              & Hcount1 & Hfit1 & Horacle).
        assert (Mojito.explaining ℓ1
                = Mojito.explain_from start_explaining_at (Z.of_nat k))
          as Hgate.
        { rewrite Hex1. destruct (Mojito.explaining ℓ); [|done].
          by rewrite Hflag. }
        apply IH in Hrun as (evs & Hc & Hr).
        2:{ rewrite Hgate. intros Hk. rewrite Nat2Z.inj_succ.
            by apply explain_from_mono. }
        exists (evs1 ++ evs). split; [by rewrite Hc, Hc1, <- app_assoc|].
        destruct r as [ℓ'|e].
        -- destruct Hr as (Hkn & Htr & Hall & Hnd & Hle & Hstop & Hcount
                           & Hfit & Hor & _).
           rewrite queried_app, explained_app, fitted_app, Hq1, Hfit1,
             !length_app.
           simpl. split_and!.
           ++ by rewrite Hkn, Hkn1, <- app_assoc.
           ++ rewrite Htr, Htr1. lia.
           ++ constructor; [done|].
              eapply Forall_impl; [exact Hall|]. simpl.
              intros j [? Hj]. split; [done|]. rewrite Hkn1 in Hj.
              intros ?. apply Hj, elem_of_app. by left.
           ++ constructor; [|done]. intros Hi.
              rewrite Forall_forall in Hall. apply Hall in Hi as [_ Hi].
              apply Hi. rewrite Hkn1. apply elem_of_app. right. left.
           ++ lia.
           ++ intros ?. apply Hstop. lia.
           ++ rewrite Hcount1, Hcount, Hgate. apply explaining_rounds.
           ++ rewrite Hfit, Hkn1. f_equal.
              rewrite <- fmap_S_seq, <- list_fmap_compose.
              apply list_fmap_ext. intros ? j _. simpl.
              by rewrite <- !app_assoc.
           ++ intros _. done.
           ++ intros _. lia.
        -- destruct Hr as [Hunbound Hexit]. split; [|done].
           intros He. by destruct (Hunbound He).
      * injection Hrun as <- <-.
        apply mojito_round_spec in Hround as (evs1 & Hc1 & Hne & Hexit).
        exists evs1. done.
Qed.

End MojitoRounds.

Abbreviation dataset l := (Mojito.X <$> l, Mojito.Y <$> l).

(** [mojito] is two fits and two evaluations, then the loop. *)
Lemma mojito_unfold train known max_iters start improve σ :
  ∃ σ0 pre perfs,
    Mojito.calls σ0 = Mojito.calls σ ++ pre ∧
    queried pre = [] ∧ explained pre = [] ∧
    fitted pre = [dataset train; dataset known] ∧
    mojito train known max_iters start improve σ =
    match Mojito.loop train
            (Mojito.set_order
               (list_to_set Mojito.examples ∖ list_to_set train))
            start improve (range max_iters) None
            (Mojito.Locals known false [perfs]) σ0 with
    | (Mojito.Ok ℓ, σ') => (Mojito.Ok (Mojito.trace ℓ), σ')
    | (Mojito.Raise e, σ') => (Mojito.Raise e, σ')
    end.
Proof.
  unfold Mojito.mojito, Mojito.bind, Mojito.learner_fit,
    Mojito.problem_evaluate, Mojito.call, Mojito.ret. simpl.
  destruct (Mojito.evaluate _ _ _) as [full_perfs w1]. simpl.
  destruct (Mojito.evaluate _ _ _) as [perfs w2]. simpl.
  eexists _, _, perfs. split_and!; cycle 4.
  - reflexivity.
  - simpl. rewrite <- ?app_assoc. simpl. reflexivity.
  - done.
  - done.
  - done.
Qed.

Lemma range_seq (n : Z) : range n = Z.of_nat <$> seq 0 (Z.to_nat n).
Proof. done. Qed.

(** X15: [mojito] raises [UnboundLocalError] exactly when [max_iters] is
    not positive: the range is empty, so the [else] branch of the loop
    formats a loop variable that was never bound.  The two fits and the two
    evaluations before the loop have been made by then. *)
Theorem mojito_unbound_loop_variable train known max_iters start improve σ :
  (mojito train known max_iters start improve σ).1
  = Mojito.Raise Mojito.UnboundLocalError
  ↔ max_iters ≤ 0.
Proof.
  destruct (mojito_unfold train known max_iters start improve σ)
    as (σ0 & pre & perfs & _ & _ & _ & _ & ->).
  split.
  - destruct (Mojito.loop _ _ _ _ _ _ _ _) as [[ℓ|e] σ'] eqn:Hloop; [done|].
    simpl. intros [= ->]. rewrite range_seq in Hloop.
    apply mojito_loop_spec in Hloop as (evs & _ & Hn & _); [|done].
    destruct (Hn eq_refl) as [Hn' _]. lia.
  - intros Hmax. unfold range.
    replace (Z.to_nat max_iters) with 0%nat by lia. done.
Qed.

(** X16: [mojito] leaves through [quit()] only when explanations are to be
    improved.  With an oracle that always comes back with an explanation, a
    round to make and not every training example known, it never returns a
    trace: the first round ends in [SystemExit], unless the query fails the
    assertion or the learner raises. *)
Theorem mojito_quits_on_an_improved_explanation
    train known max_iters start improve σ :
  ((mojito train known max_iters start improve σ).1
   = Mojito.Raise Mojito.SystemExit → improve = true) ∧
  (improve = true →
   oracle_explains →
   0 < max_iters →
   length known ≠ length train →
   ∃ e σ',
     mojito train known max_iters start improve σ = (Mojito.Raise e, σ') ∧
     (e = Mojito.SystemExit ∨ e = Mojito.AssertionError
      ∨ ∃ code, e = Mojito.Collaborator code)).
Proof.
  destruct (mojito_unfold train known max_iters start improve σ)
    as (σ0 & pre & perfs & _ & _ & _ & _ & ->).
  destruct (Mojito.loop _ _ _ _ _ _ _ _) as [[ℓ|e] σ'] eqn:Hloop;
    rewrite range_seq in Hloop;
    (apply mojito_loop_spec in Hloop as (evs & _ & Hr); [|done]).
  - split; [done|]. intros Himprove Horacle Hmax Hlen. exfalso.
    destruct Hr as (Hkn & _ & _ & _ & _ & Hstop & _ & _ & Hor & _).
    simpl in *.
    destruct (queried evs) as [|i qs] eqn:Hqs.
    + rewrite app_nil_r in Hkn. rewrite Hkn in Hstop.
      apply Hlen, Hstop. simpl. lia.
    + apply Hor; [simpl; lia|done..].
  - destruct Hr as [Hunbound Hexit]. split.
    + simpl. intros [= ->]. by apply Hexit.
    + intros _ _ Hmax _. exists e, σ'. split; [done|].
      destruct e as [| | |code]; eauto.
      destruct (Hunbound eq_refl) as [Hn _]. lia.
Qed.

(** X17: a trace that is returned holds the starting performance and one
    performance per example shown to the user.  These examples are distinct
    training examples that were not known, at most [max_iters] of them, and
    fewer only if the known examples have reached the number of training
    examples. *)
Theorem mojito_trace_and_queries train known max_iters start improve σ tr σ' :
  mojito train known max_iters start improve σ = (Mojito.Ok tr, σ') →
  ∃ evs,
    Mojito.calls σ' = Mojito.calls σ ++ evs ∧
    length tr = S (length (queried evs)) ∧
    0 < max_iters ∧
    Z.of_nat (length (queried evs)) ≤ max_iters ∧
    NoDup (queried evs) ∧
    Forall (λ i, i ∈ train ∧ i ∉ known) (queried evs) ∧
    (Z.of_nat (length (queried evs)) < max_iters →
     (length known + length (queried evs))%nat = length train).
Proof.
  destruct (mojito_unfold train known max_iters start improve σ)
    as (σ0 & pre & perfs & Hpre & Hq & _ & _ & ->).
  destruct (Mojito.loop _ _ _ _ _ _ _ _) as [[ℓ|e] σ1] eqn:Hloop; [|done].
  intros [= <- <-]. rewrite range_seq in Hloop.
  apply mojito_loop_spec in Hloop as (evs & Hc & Hr); [|done].
  destruct Hr as (Hkn & Htr & Hall & Hnd & Hle & Hstop & _ & _ & _ & Hpos).
  simpl in *. specialize (Hpos eq_refl).
  exists (pre ++ evs). rewrite queried_app, Hq. simpl.
  split_and!.
  - by rewrite Hc, Hpre, <- app_assoc.
  - lia.
  - lia.
  - lia.
  - done.
  - done.
  - intros Hlt. rewrite <- Hstop by lia. by rewrite Hkn, length_app.
Qed.


(** X19: in a run that returns, the learner is first fitted on the whole
    training set, then on the known examples, then after each query on the
    known examples followed by the queries so far, always with the labels
    of the problem: the label the user gives is not used. *)
Theorem mojito_fits_on_the_problem_labels
    train known max_iters start improve σ tr σ' :
  mojito train known max_iters start improve σ = (Mojito.Ok tr, σ') →
  ∃ evs,
    Mojito.calls σ' = Mojito.calls σ ++ evs ∧
    fitted evs
    = dataset train :: dataset known
      :: ((λ j, dataset (known ++ take (S j) (queried evs)))
          <$> seq 0 (length (queried evs))).
Proof.
  destruct (mojito_unfold train known max_iters start improve σ)
    as (σ0 & pre & perfs & Hpre & Hq & _ & Hfit & ->).
  destruct (Mojito.loop _ _ _ _ _ _ _ _) as [[ℓ|e] σ1] eqn:Hloop; [|done].
  intros [= <- <-]. rewrite range_seq in Hloop.
  apply mojito_loop_spec in Hloop as (evs & Hc & Hr); [|done].
  destruct Hr as (_ & _ & _ & _ & _ & _ & _ & Hfits & _).
  exists (pre ++ evs). rewrite queried_app, fitted_app, Hq, Hfit. simpl.
  split; [by rewrite Hc, Hpre, <- app_assoc|].
  by rewrite Hfits.
Qed.

End MojitoProperties.

Lemma mojito_quits_on_an_improved_explanation_witness :
  ∃ e σ',
    Mojito.mojito (Stg := Mojito.eager) [0; 1; 2; 3] [0; 1] 5 0 true
                  (Mojito.start Mojito.eager 0%nat)
    = (Mojito.Raise e, σ') ∧
    (e = Mojito.SystemExit ∨ e = Mojito.AssertionError
     ∨ ∃ code, e = Mojito.Collaborator code).
Proof.
  apply (proj2 (mojito_quits_on_an_improved_explanation
                  (Stg := Mojito.eager) [0; 1; 2; 3] [0; 1] 5 0 true
                  (Mojito.start Mojito.eager 0%nat))).
  - reflexivity.
  - intros w x g. discriminate.
  - lia.
  - simpl. lia.
Defined.

Lemma mojito_silent_run :
  ∃ tr σ',
    Mojito.mojito (Stg := Mojito.silent) [0; 1; 2; 3] [0; 1] 5 1 true
                  (Mojito.start Mojito.silent 0%nat)
    = (Mojito.Ok tr, σ').
Proof. eexists _, _. vm_compute. reflexivity. Defined.

Lemma mojito_trace_and_queries_witness :
  ∃ tr σ' (evs : list (@Mojito.event Mojito.silent)),
    Mojito.mojito (Stg := Mojito.silent) [0; 1; 2; 3] [0; 1] 5 1 true
                  (Mojito.start Mojito.silent 0%nat)
    = (Mojito.Ok tr, σ') ∧
    length tr = S (length (Mojito.queried evs)) ∧
    NoDup (Mojito.queried evs).
Proof.
  destruct mojito_silent_run as (tr & σ' & Hrun).
  destruct (mojito_trace_and_queries (Stg := Mojito.silent) _ _ _ _ _ _ _ _
              Hrun) as (evs & _ & Hlen & _ & _ & Hnd & _).
  exists tr, σ', evs. split; [exact Hrun|]. split; [exact Hlen|exact Hnd].
Defined.


Lemma mojito_fits_on_the_problem_labels_witness :
  ∃ tr σ' (evs : list (@Mojito.event Mojito.silent)),
    Mojito.mojito (Stg := Mojito.silent) [0; 1; 2; 3] [0; 1] 5 1 true
                  (Mojito.start Mojito.silent 0%nat)
    = (Mojito.Ok tr, σ') ∧
    Mojito.fitted evs
    = ([0; 10; 20; 30], [0; 1; 0; 1]) :: ([0; 10], [0; 1])
      :: ((λ j : nat,
             (@Mojito.X Mojito.silent
                <$> ([0; 1] ++ take (S j) (Mojito.queried evs)),
              @Mojito.Y Mojito.silent
                <$> ([0; 1] ++ take (S j) (Mojito.queried evs))))
          <$> seq 0 (length (Mojito.queried evs))).
Proof.
  destruct mojito_silent_run as (tr & σ' & Hrun).
  destruct (mojito_fits_on_the_problem_labels (Stg := Mojito.silent)
              _ _ _ _ _ _ _ _ Hrun) as (evs & _ & Hfit).
  exists tr, σ', evs. split; [exact Hrun|]. exact Hfit.
Defined.
